(** * A shallow embedding of [src/compressor.py] (LLMTextSimplifier)

    Python [str] values are modelled as lists of ASCII characters
    ([list ascii]); the embedding covers ASCII text, where Python's
    [str.lower], [\w], [str.isspace] and [re.IGNORECASE] agree with the
    definitions below.  Bytes 128..255 are treated as non-word,
    non-space characters that lower-casing leaves alone.

    Regular expressions are not interpreted in general: every pattern the
    source uses is a word-boundary anchored literal, or an alternation of
    such literals, and is modelled by [sub] below, which follows the
    left-to-right, non-overlapping scan of Python's [re.sub]. *)

From Stdlib Require Import Ascii String List Bool ZArith Lia.
From Stdlib Require Import Numbers.DecimalString Arith.Wf_nat.
Import ListNotations.

Local Open Scope list_scope.

Definition text := list ascii.

(** String literals of the source, read as [text]. *)
Definition L (s : string) : text := list_ascii_of_string s.

(** ** Characters *)

Definition is_upper (c : ascii) : bool :=
  let n := nat_of_ascii c in (65 <=? n) && (n <=? 90).

Definition is_lower (c : ascii) : bool :=
  let n := nat_of_ascii c in (97 <=? n) && (n <=? 122).

Definition is_digit (c : ascii) : bool :=
  let n := nat_of_ascii c in (48 <=? n) && (n <=? 57).

(** [\w] on ASCII: letters, digits and the underscore. *)
Definition is_word (c : ascii) : bool :=
  is_upper c || is_lower c || is_digit c || (nat_of_ascii c =? 95).

(** [str.isspace] on ASCII: \t \n \v \f \r, the separators 0x1c..0x1f and
    the space. *)
Definition is_space (c : ascii) : bool :=
  let n := nat_of_ascii c in
  ((9 <=? n) && (n <=? 13)) || ((28 <=? n) && (n <=? 32)).

(** [str.lower] / [str.upper] on one character. *)
Definition lower (c : ascii) : ascii :=
  if is_upper c then ascii_of_nat (nat_of_ascii c + 32) else c.

Definition upper (c : ascii) : ascii :=
  if is_lower c then ascii_of_nat (nat_of_ascii c - 32) else c.

Definition lower_s (s : text) : text := map lower s.

(** ** Python string methods *)

(** [str.strip()] *)
Fixpoint lstrip (s : text) : text :=
  match s with
  | [] => []
  | c :: s' => if is_space c then lstrip s' else s
  end.

Definition strip (s : text) : text := rev (lstrip (rev (lstrip s))).

(** [str.capitalize()]: first character upper-cased, the rest lower-cased. *)
Definition capitalize (s : text) : text :=
  match s with
  | [] => []
  | c :: s' => upper c :: lower_s s'
  end.

(** [len(str.split())]: the number of maximal runs of non-space characters. *)
Fixpoint split_count_go (inword : bool) (s : text) : nat :=
  match s with
  | [] => 0
  | c :: s' =>
      if is_space c then split_count_go false s'
      else if inword then split_count_go true s'
      else S (split_count_go true s')
  end.

Definition split_count (s : text) : nat := split_count_go false s.

(** [sep.join(parts)] *)
Fixpoint join (sep : text) (parts : list text) : text :=
  match parts with
  | [] => []
  | [p] => p
  | p :: ps => p ++ sep ++ join sep ps
  end.

(** [re.split(r'[,;]', s)] *)
Definition is_comma_semi (c : ascii) : bool :=
  (nat_of_ascii c =? 44) || (nat_of_ascii c =? 59).

Fixpoint split_seps (s : text) : list text :=
  match s with
  | [] => [[]]
  | c :: s' =>
      let ps := split_seps s' in
      if is_comma_semi c then [] :: ps
      else match ps with
           | p :: ps' => (c :: p) :: ps'
           | [] => [[c]]
           end
  end.

(** ** Tokenizer: [re.findall(r'\b\w+\b', sentence.lower())]

    [lead s] is the maximal run of word characters at the head of [s],
    together with the tokens of what follows that run. *)

Definition cons_nonempty (w : text) (ts : list text) : list text :=
  match w with [] => ts | _ => w :: ts end.

Fixpoint lead (s : text) : text * list text :=
  match s with
  | [] => ([], [])
  | c :: s' =>
      let (w, ts) := lead s' in
      if is_word c then (c :: w, ts) else ([], cons_nonempty w ts)
  end.

Definition runs (s : text) : list text :=
  let (w, ts) := lead s in cons_nonempty w ts.

Definition tokenize (sentence : text) : list text := runs (lower_s sentence).

(** ** [re.sub] with a word-boundary anchored literal pattern

    [rf"\b{re.escape(p)}\b"] with [flags=re.IGNORECASE] is represented by
    the literal [p]; an alternation [\b(p1|p2|...)\b] by the list of its
    literals, tried in order.  The boundary [\b] holds between two
    positions exactly when one side is a word character and the other is
    not (the ends of the string count as non-word). *)

Definition wordo (c : option ascii) : bool :=
  match c with Some c => is_word c | None => false end.

Definition boundary (before after : option ascii) : bool :=
  xorb (wordo before) (wordo after).

(** Case-insensitive literal prefix: the rest of [s] after [p]. *)
Fixpoint prefix_ci (p s : text) : option text :=
  match p, s with
  | [], _ => Some s
  | a :: p', c :: s' =>
      if Ascii.eqb (lower a) (lower c) then prefix_ci p' s' else None
  | _ :: _, [] => None
  end.

(** The boundary after the matched literal: wordness does not depend on
    case, so the literal's last character stands for the subject's. *)
Definition match_alt (prev : option ascii) (a : text) (s : text) : option nat :=
  if boundary prev (hd_error s) then
    match prefix_ci a s with
    | Some rest =>
        if boundary (last (map Some a) prev) (hd_error rest)
        then Some (length a) else None
    | None => None
    end
  else None.

Fixpoint match_at (alts : list text) (prev : option ascii) (s : text)
  : option nat :=
  match alts with
  | [] => None
  | a :: alts' =>
      match match_alt prev a s with
      | Some n => Some n
      | None => match_at alts' prev s
      end
  end.

(** The scan: [prev] is the character before [s] in the subject, [skip]
    the number of characters of the current match still to be consumed. *)
Fixpoint sub_go (alts : list text) (r : text) (prev : option ascii)
    (skip : nat) (s : text) : text :=
  match s with
  | [] => []
  | c :: s' =>
      match skip with
      | S k => sub_go alts r (Some c) k s'
      | O =>
          match match_at alts prev s with
          | Some (S k) => r ++ sub_go alts r (Some c) k s'
          | Some O => r ++ c :: sub_go alts r (Some c) O s'
          | None => c :: sub_go alts r (Some c) O s'
          end
      end
  end.

Definition sub (alts : list text) (r : text) (s : text) : text :=
  sub_go alts r None O s.

(** [for k, v in table.items(): s = re.sub(rf"\b{re.escape(k)}\b", v, s, ...)] *)
Definition sub_table (table : list (text * text)) (s : text) : text :=
  fold_left (fun acc kv => sub [fst kv] (snd kv) acc) table s.

(** ** Dicts: association lists in insertion order.  A dict literal with a
    repeated key keeps the key's first position and its last value. *)

Fixpoint dict_set {V} (k : text) (v : V) (d : list (text * V))
  : list (text * V) :=
  match d with
  | [] => [(k, v)]
  | (k', v') :: d' =>
      if list_eq_dec ascii_dec k k' then (k, v) :: d'
      else (k', v') :: dict_set k v d'
  end.

Definition dict_literal {V} (kvs : list (text * V)) : list (text * V) :=
  fold_left (fun d kv => dict_set (fst kv) (snd kv) d) kvs [].

Fixpoint dict_get {V} (d : list (text * V)) (k : text) : option V :=
  match d with
  | [] => None
  | (k', v) :: d' =>
      if list_eq_dec ascii_dec k k' then Some v else dict_get d' k
  end.

Definition mem (s : list text) (w : text) : bool :=
  existsb (fun x => if list_eq_dec ascii_dec x w then true else false) s.

(** ** [Config] and its default tables *)

Record Config := {
  stop_words : list text;
  synonyms : list (text * text);
  redundant_phrases : list (text * text);
  number_mapping : list (text * text);
  compression_levels : list (Z * string);
  unnecessary_adjectives : list text
}.

Definition pairs (kvs : list (string * string)) : list (text * text) :=
  map (fun kv => (L (fst kv), L (snd kv))) kvs.

Definition default_stop_words : list text :=
  map L ["the"; "is"; "in"; "at"; "of"; "and"; "to"; "for"; "on"; "with";
         "a"; "an"]%string.

(** The literal as written in the source: "utilize" occurs twice. *)
Definition synonyms_literal : list (string * string) :=
  [("utilize", "use"); ("demonstrate", "show"); ("accomplish", "do");
   ("in order to", "to"); ("due to the fact that", "because");
   ("approximately", "approx."); ("for example", "e.g.");
   ("do not", "don't"); ("cannot", "can't"); ("does not", "doesn't");
   ("implement", "use"); ("facilitate", "help"); ("leverage", "use");
   ("optimize", "improve"); ("enhance", "improve"); ("mitigate", "reduce");
   ("necessitate", "need"); ("utilize", "use"); ("commence", "start");
   ("terminate", "end"); ("subsequent", "later"); ("prior to", "before");
   ("in the event that", "if"); ("despite the fact that", "although");
   ("at this point in time", "now"); ("in the near future", "soon")]%string.

Definition default_synonyms : list (text * text) :=
  dict_literal (pairs synonyms_literal).

Definition default_redundant_phrases : list (text * text) :=
  dict_literal (pairs
  [("repeat again", "repeat"); ("added bonus", "bonus");
   ("advance planning", "planning"); ("basic essentials", "essentials");
   ("blend together", "blend"); ("collaborate together", "collaborate");
   ("end result", "result"); ("future plans", "plans");
   ("past history", "history"); ("revert back", "revert");
   ("sum total", "total"); ("unexpected surprise", "surprise")]%string).

Definition default_number_mapping : list (text * text) :=
  dict_literal (pairs
  [("one", "1"); ("two", "2"); ("three", "3"); ("four", "4"); ("five", "5");
   ("six", "6"); ("seven", "7"); ("eight", "8"); ("nine", "9"); ("ten", "10");
   ("eleven", "11"); ("twelve", "12"); ("thirteen", "13"); ("fourteen", "14");
   ("fifteen", "15"); ("sixteen", "16"); ("seventeen", "17");
   ("eighteen", "18"); ("nineteen", "19"); ("twenty", "20");
   ("thirty", "30"); ("forty", "40"); ("fifty", "50"); ("sixty", "60");
   ("seventy", "70"); ("eighty", "80"); ("ninety", "90");
   ("hundred", "100"); ("thousand", "1000"); ("million", "1000000")]%string).

Definition default_compression_levels : list (Z * string) :=
  [(1%Z, "minimal"); (2%Z, "moderate"); (3%Z, "aggressive");
   (4%Z, "maximum")]%string.

Definition default_unnecessary_adjectives : list text :=
  map L ["very"; "extremely"; "really"; "just"; "simply"; "quite"; "rather";
         "somewhat"; "fairly"; "pretty"; "totally"; "absolutely";
         "completely"; "utterly"; "entirely"; "fully"; "thoroughly";
         "wholly"; "perfectly"]%string.

Definition default_config : Config := {|
  stop_words := default_stop_words;
  synonyms := default_synonyms;
  redundant_phrases := default_redundant_phrases;
  number_mapping := default_number_mapping;
  compression_levels := default_compression_levels;
  unnecessary_adjectives := default_unnecessary_adjectives
|}.

(** ** The simplifier object, exceptions and logging

    A method runs against the object's state; it returns a result or the
    exception it raises, the log lines it emits, and the object's state
    afterwards (which persists when an exception propagates). *)

Record Simplifier := { config : Config; _level : Z }.

Inductive exn := ValueError (msg : string).

Inductive result (A : Type) := Ok (a : A) | Err (e : exn).
Arguments Ok {A} a.
Arguments Err {A} e.

Definition M (A : Type) := Simplifier -> result A * list string * Simplifier.

Definition ret {A} (a : A) : M A := fun st => (Ok a, [], st).

Definition bind {A B} (m : M A) (k : A -> M B) : M B :=
  fun st =>
    match m st with
    | (Err e, log, st') => (Err e, log, st')
    | (Ok a, log, st') =>
        match k a st' with
        | (r, log', st'') => (r, log ++ log', st'')
        end
    end.

Notation "x <- m ;; k" := (bind m (fun x => k))
  (at level 61, m at next level, right associativity).

Definition get : M Simplifier := fun st => (Ok st, [], st).
Definition put (st : Simplifier) : M unit := fun _ => (Ok tt, [], st).
Definition raise {A} (e : exn) : M A := fun st => (Err e, [], st).
Definition log_info (msg : string) : M unit := fun st => (Ok tt, [msg], st).

(** [str(n)] for a Python int. *)
Definition str_int (z : Z) : string := NilEmpty.string_of_int (Z.to_int z).

(** Python's [min] / [max] over the dict's keys; an empty sequence raises. *)
Definition py_min (ks : list Z) : option Z :=
  match ks with [] => None | k :: ks' => Some (fold_left Z.min ks' k) end.

Definition py_max (ks : list Z) : option Z :=
  match ks with [] => None | k :: ks' => Some (fold_left Z.max ks' k) end.

Definition level_keys (cfg : Config) : list Z := map fst (compression_levels cfg).

Definition invalid_level_msg (lo hi : Z) : string :=
  ("Invalid level. Choose between " ++ str_int lo ++ " and " ++ str_int hi
   ++ ".")%string.

Definition set_level (level : Z) : M unit :=
  st <- get ;;
  let ks := level_keys (config st) in
  if existsb (Z.eqb level) ks then
    put {| config := config st; _level := level |}
  else
    match py_min ks, py_max ks with
    | Some lo, Some hi => raise (ValueError (invalid_level_msg lo hi))
    | _, _ => raise (ValueError "min() arg is an empty sequence")
    end.

(** ** The stages *)

Section Stages.
Variable cfg : Config.

Definition remove_stop_words (tokens : list text) : list text :=
  filter (fun word => negb (mem (stop_words cfg) word)) tokens.

Definition replace_synonyms (tokens : list text) : list text :=
  map (fun word => match dict_get (synonyms cfg) word with
                   | Some v => v | None => word end) tokens.

Definition simplify_phrases (sentence : text) : text :=
  sub_table (synonyms cfg) sentence.

Definition remove_redundant_phrases (sentence : text) : text :=
  sub_table (redundant_phrases cfg) sentence.

Definition remove_unnecessary_adjectives (tokens : list text) : list text :=
  filter (fun word => negb (mem (unnecessary_adjectives cfg) word)) tokens.

Definition convert_numbers (sentence : text) : text :=
  sub_table (number_mapping cfg) sentence.

End Stages.

(** [r"\bis\b (being )?(done|used|shown|demonstrated) by\b"] and its [are]
    twin, written out as alternations of literals: the optional group and
    the inner alternation give eight literals; the inner [\b] after the
    verb always holds, a space following it. *)
Definition passive_alts (verb : string) : list text :=
  map (fun p => L (verb ++ " " ++ p ++ " by")%string)
    ["being done"; "being used"; "being shown"; "being demonstrated";
     "done"; "used"; "shown"; "demonstrated"]%string.

Definition convert_passive_to_active (sentence : text) : text :=
  let sentence := sub (passive_alts "is") (L "does") sentence in
  sub (passive_alts "are") (L "do") sentence.

Definition aux_verbs : list text := map L ["is"; "are"; "am"; "was"; "were"]%string.
Definition have_verbs : list text := map L ["has"; "have"; "had"]%string.
Definition rel_pronouns : list text := map L ["that"; "which"; "who"]%string.

Definition compress_max (sentence : text) : text :=
  let sentence := sub aux_verbs [] sentence in
  let sentence := sub have_verbs [] sentence in
  let sentence := sub rel_pronouns [] sentence in
  strip sentence.

Definition split_long_sentences (sentence : text) : text :=
  if 20 <? split_count sentence then
    let parts := split_seps sentence in
    if 1 <? length parts then
      join (L ". ") (map (fun part => capitalize (strip part)) parts)
    else sentence
  else sentence.

(** [_simplify]: [tokens] and [sentence] are the two locals of the source;
    [sentence] is reassigned from [tokens] only inside the level >= 2 block. *)
Definition _simplify (st : Simplifier) (sentence : text) : text :=
  let cfg := config st in
  let level := _level st in
  let tokens := tokenize sentence in
  let tokens :=
    if (1 <=? level)%Z
    then replace_synonyms cfg (remove_stop_words cfg tokens) else tokens in
  let '(tokens, sentence) :=
    if (2 <=? level)%Z then
      let tokens := remove_unnecessary_adjectives cfg tokens in
      let sentence := join (L " ") tokens in
      (tokens, simplify_phrases cfg sentence)
    else (tokens, sentence) in
  let sentence :=
    if (3 <=? level)%Z
    then remove_redundant_phrases cfg (convert_passive_to_active sentence)
    else sentence in
  let sentence := if (level =? 4)%Z then compress_max sentence else sentence in
  let sentence := split_long_sentences sentence in
  let sentence := convert_numbers cfg sentence in
  strip sentence.

Definition simplify_sentence (sentence : text) : M text :=
  st <- get ;;
  _ <- log_info ("Original sentence: " ++ string_of_list_ascii sentence) ;;
  let sentence := _simplify st sentence in
  _ <- log_info ("Simplified sentence (Level " ++ str_int (_level st) ++ "): "
                 ++ string_of_list_ascii sentence) ;;
  ret sentence.

(** [[self.simplify_sentence(sentence) for sentence in sentences]] *)
Fixpoint batch_simplify (sentences : list text) : M (list text) :=
  match sentences with
  | [] => ret []
  | s :: ss =>
      r <- simplify_sentence s ;;
      rs <- batch_simplify ss ;;
      ret (r :: rs)
  end.

(** The simplifier [main] builds, switched to a given level. *)
Definition at_level (level : Z) : Simplifier :=
  {| config := default_config; _level := level |}.

(** [LLMTextSimplifier(config, level)]: [config or Config()], then
    [set_level].  [set_level] reads only the config, so the object it
    starts from carries the requested level in place of the attribute
    Python has not set yet; when [set_level] raises, no object results. *)
Definition init (config0 : option Config) (level : Z) : result Simplifier :=
  let cfg := match config0 with Some c => c | None => default_config end in
  match set_level level {| config := cfg; _level := level |} with
  | (Ok _, _, st) => Ok st
  | (Err e, _, _) => Err e
  end.

(** The loop of [main]: for each level, [set_level], [simplify_sentence]
    and one printed line.  The result is the list of printed lines and the
    exception that stopped the loop, if any; log lines are not printed. *)
Fixpoint main_loop (levels : list Z) (sentence : text) (st : Simplifier)
  : list string * option exn :=
  match levels with
  | [] => ([], None)
  | level :: rest =>
      match set_level level st with
      | (Err e, _, _) => ([], Some e)
      | (Ok _, _, st1) =>
          match simplify_sentence sentence st1 with
          | (Err e, _, _) => ([], Some e)
          | (Ok simplified, _, st2) =>
              let (out, err) := main_loop rest sentence st2 in
              (("Level " ++ str_int level ++ ": " ++ string_of_list_ascii simplified)%string
                 :: out, err)
          end
      end
  end.

(** [main], given the line [input()] returns. *)
Definition main (sentence : text) : list string * option exn :=
  match init None 1 with
  | Ok st => main_loop [1; 2; 3; 4]%Z sentence st
  | Err e => ([], Some e)
  end.

(** * Lemmas about characters and tokens *)

Ltac ascii_cases c :=
  destruct c as [[] [] [] [] [] [] [] []]; reflexivity.

Lemma is_word_lower c : is_word (lower c) = is_word c.
Proof. ascii_cases c. Qed.

Lemma lower_lower c : lower (lower c) = lower c.
Proof. ascii_cases c. Qed.

Lemma lower_upper c : lower (upper c) = lower c.
Proof. ascii_cases c. Qed.

Lemma is_word_space c : is_space c = true -> is_word c = false.
Proof. destruct c as [[] [] [] [] [] [] [] []]; cbv; congruence. Qed.

Lemma is_word_comma_semi c : is_comma_semi c = true -> is_word c = false.
Proof. destruct c as [[] [] [] [] [] [] [] []]; cbv; congruence. Qed.

Lemma lower_s_app x y : lower_s (x ++ y) = lower_s x ++ lower_s y.
Proof. apply map_app. Qed.

Lemma lower_s_idem x : lower_s (lower_s x) = lower_s x.
Proof.
  induction x as [|c x IH]; simpl; [reflexivity|].
  rewrite lower_lower, IH; reflexivity.
Qed.

Lemma lead_app_nonword x d y :
  is_word d = false ->
  lead (x ++ d :: y) = (fst (lead x), snd (lead x) ++ runs y).
Proof.
  intros Hd. induction x as [|c x IH]; simpl.
  - rewrite Hd. unfold runs. destruct (lead y); reflexivity.
  - rewrite IH. destruct (lead x) as [w ts]; simpl.
    destruct (is_word c); [reflexivity|].
    destruct w; reflexivity.
Qed.

Lemma runs_app_nonword x d y :
  is_word d = false -> runs (x ++ d :: y) = runs x ++ runs y.
Proof.
  intros Hd. unfold runs at 1. rewrite (lead_app_nonword x d y Hd).
  unfold runs. destruct (lead x) as [w ts]; simpl.
  destruct w; reflexivity.
Qed.

Lemma tokenize_app_nonword x d y :
  is_word d = false -> tokenize (x ++ d :: y) = tokenize x ++ tokenize y.
Proof.
  intros Hd. unfold tokenize. rewrite lower_s_app. simpl.
  apply runs_app_nonword. rewrite is_word_lower; exact Hd.
Qed.

Lemma tokenize_cons_nonword d y :
  is_word d = false -> tokenize (d :: y) = tokenize y.
Proof. intros Hd. exact (tokenize_app_nonword [] d y Hd). Qed.

Lemma tokenize_nil : tokenize [] = [].
Proof. reflexivity. Qed.

Lemma lead_word w :
  forallb is_word w = true -> lead w = (w, []).
Proof.
  induction w as [|c w IH]; simpl; [reflexivity|].
  intros H. apply andb_prop in H as [Hc Hw].
  rewrite IH by exact Hw. rewrite Hc. reflexivity.
Qed.

Lemma forallb_word_lower w :
  forallb is_word (lower_s w) = forallb is_word w.
Proof.
  induction w as [|c w IH]; simpl; [reflexivity|].
  rewrite is_word_lower, IH; reflexivity.
Qed.

Lemma tokenize_word w :
  w <> [] -> forallb is_word w = true -> tokenize w = [lower_s w].
Proof.
  intros Hne Hw. unfold tokenize, runs.
  rewrite lead_word by (rewrite forallb_word_lower; exact Hw).
  destruct w; [congruence | reflexivity].
Qed.

Lemma tokenize_nonwords y :
  forallb (fun c => negb (is_word c)) y = true -> tokenize y = [].
Proof.
  induction y as [|d y IH]; simpl; [reflexivity|].
  intros H. apply andb_prop in H as [Hd Hy].
  rewrite tokenize_cons_nonword by (destruct (is_word d); simpl in *; congruence).
  exact (IH Hy).
Qed.

Lemma tokenize_app_nonwords x y :
  forallb (fun c => negb (is_word c)) y = true -> tokenize (x ++ y) = tokenize x.
Proof.
  intros H. destruct y as [|d y].
  - rewrite app_nil_r; reflexivity.
  - simpl in H. apply andb_prop in H as [Hd Hy].
    rewrite tokenize_app_nonword by (destruct (is_word d); simpl in *; congruence).
    rewrite (tokenize_nonwords y Hy). apply app_nil_r.
Qed.

(** Every string is empty, starts with a non-word character, or starts with
    a maximal run of word characters. *)
Lemma decompose s :
  s = [] \/
  (exists d y, s = d :: y /\ is_word d = false) \/
  (exists w y, w <> [] /\ forallb is_word w = true /\ s = w ++ y /\
     (y = [] \/ exists d y', y = d :: y' /\ is_word d = false)).
Proof.
  induction s as [|c s IH]; [left; reflexivity|right].
  destruct (is_word c) eqn:Hc; [right | left; eauto].
  destruct IH as [-> | [[d [y [-> Hd]]] | [w [y [Hne [Hw [-> Hy]]]]]]].
  - exists [c], []. repeat split; [congruence | simpl; rewrite Hc; reflexivity | left; reflexivity].
  - exists [c], (d :: y). repeat split; [congruence | simpl; rewrite Hc; reflexivity | right; eauto].
  - exists (c :: w), y. repeat split; [congruence | simpl; rewrite Hc, Hw; reflexivity | exact Hy].
Qed.

Lemma length_lt_app_cons (w : text) d y' :
  w <> [] -> length y' < length (w ++ d :: y').
Proof.
  intros Hne. rewrite length_app. simpl. destruct w; [congruence|simpl]. lia.
Qed.

(** * Lemmas about [sub] on patterns made of whole words

    A literal is a word literal when it is non-empty and made of word
    characters: all of [number_mapping]'s keys and the alternatives of
    [compress_max] are. *)

Definition word_lit (a : text) : bool :=
  match a with [] => false | _ => forallb is_word a end.

(** The character before the rest of the subject, once [v] is consumed. *)
Definition lastc (prev : option ascii) (v : text) : option ascii :=
  fold_left (fun _ c => Some c) v prev.

Section SubWords.
Variable alts : list text.
Variable r : text.
Hypothesis Halts : forallb word_lit alts = true.

Lemma match_at_noboundary prev s :
  boundary prev (hd_error s) = false -> match_at alts prev s = None.
Proof.
  intros Hb. clear Halts. induction alts as [|a alts' IH]; simpl; [reflexivity|].
  unfold match_alt at 1. rewrite Hb. exact IH.
Qed.

Lemma prefix_ci_app p m rest :
  lower_s p = lower_s m -> prefix_ci p (m ++ rest) = Some rest.
Proof.
  revert m. induction p as [|a p IH]; intros [|c m] H; simpl in *;
    try discriminate; [reflexivity|].
  injection H as Hac Hpm. rewrite Hac, Ascii.eqb_refl. exact (IH m Hpm).
Qed.

Lemma prefix_ci_some p s rest :
  prefix_ci p s = Some rest -> exists m, s = m ++ rest /\ lower_s m = lower_s p.
Proof.
  revert s. induction p as [|a p IH]; intros [|c s] H; simpl in *.
  - injection H as <-. exists []. split; reflexivity.
  - injection H as <-. exists []. split; reflexivity.
  - discriminate.
  - destruct (Ascii.eqb (lower a) (lower c)) eqn:E; [|discriminate].
    apply Ascii.eqb_eq in E.
    destruct (IH s H) as [m [-> Hm]].
    exists (c :: m). simpl. rewrite E, Hm. split; reflexivity.
Qed.

Lemma wordo_last_word a prev :
  word_lit a = true -> wordo (last (map Some a) prev) = true.
Proof.
  induction a as [|x a IH]; simpl; [discriminate|].
  intros H. apply andb_prop in H as [Hx Ha].
  destruct a as [|y a]; simpl in *; [exact Hx|].
  apply IH. exact Ha.
Qed.

Lemma lower_char_neq a d :
  is_word a = true -> is_word d = false -> Ascii.eqb (lower a) (lower d) = false.
Proof.
  intros Ha Hd. apply Ascii.eqb_neq. intros E.
  assert (is_word (lower a) = is_word (lower d)) as E' by (rewrite E; reflexivity).
  rewrite !is_word_lower in E'. congruence.
Qed.

Lemma forallb_app_true (f : ascii -> bool) x y :
  forallb f (x ++ y) = true -> forallb f x = true /\ forallb f y = true.
Proof. rewrite forallb_app. apply andb_prop. Qed.

Definition after_word (y : text) : Prop :=
  y = [] \/ exists d y', y = d :: y' /\ is_word d = false.

Lemma match_alt_word prev a w y :
  wordo prev = false -> word_lit a = true -> w <> [] ->
  forallb is_word w = true -> after_word y ->
  match_alt prev a (w ++ y) =
    if list_eq_dec ascii_dec (lower_s a) (lower_s w)
    then Some (length w) else None.
Proof.
  intros Hp Ha Hne Hw Hy. unfold match_alt.
  assert (Hb : boundary prev (hd_error (w ++ y)) = true).
  { destruct w as [|c w]; [congruence|]. simpl in *.
    apply andb_prop in Hw as [Hc _]. unfold boundary; simpl. rewrite Hp, Hc. reflexivity. }
  rewrite Hb.
  assert (Haw : forallb is_word a = true) by (destruct a; [discriminate | exact Ha]).
  destruct (list_eq_dec ascii_dec (lower_s a) (lower_s w)) as [E|NE].
  - rewrite prefix_ci_app by exact E.
    assert (Hb' : boundary (last (map Some a) prev) (hd_error y) = true).
    { unfold boundary. rewrite wordo_last_word by exact Ha.
      destruct Hy as [-> | [d [y' [-> Hd]]]]; simpl; [reflexivity | rewrite Hd; reflexivity]. }
    rewrite Hb'. f_equal.
    rewrite <- (length_map lower a), <- (length_map lower w). exact (f_equal (@length _) E).
  - destruct (prefix_ci a (w ++ y)) as [rest|] eqn:P; [|reflexivity].
    destruct (prefix_ci_some _ _ _ P) as [m [Heq Hm]].
    assert (Hmw : forallb is_word m = true).
    { rewrite <- forallb_word_lower, Hm, forallb_word_lower. exact Haw. }
    destruct (app_eq_app _ _ _ _ Heq) as [l [[Hw' Hr] | [Hm' Hy']]].
    + destruct l as [|x l].
      * rewrite app_nil_r in Hw'. subst w. congruence.
      * subst w rest. apply forallb_app_true in Hw as [_ Hxl].
        simpl in Hxl. apply andb_prop in Hxl as [Hx _].
        unfold boundary. rewrite wordo_last_word by exact Ha. simpl. rewrite Hx. reflexivity.
    + destruct l as [|x l].
      * rewrite app_nil_r in Hm'. subst m. congruence.
      * subst m. apply forallb_app_true in Hmw as [_ Hxl].
        simpl in Hxl. apply andb_prop in Hxl as [Hx _].
        destruct Hy as [Hy | [d [y' [Hy Hd]]]]; rewrite Hy in Hy'; [discriminate|].
        injection Hy' as -> _. congruence.
Qed.

Lemma match_at_word prev w y :
  wordo prev = false -> w <> [] -> forallb is_word w = true -> after_word y ->
  match_at alts prev (w ++ y) =
    if mem (map lower_s alts) (lower_s w) then Some (length w) else None.
Proof.
  intros Hp Hne Hw Hy. induction alts as [|a alts' IH]; simpl; [reflexivity|].
  simpl in Halts. apply andb_prop in Halts as [Ha Halts'].
  rewrite (match_alt_word prev a w y Hp Ha Hne Hw Hy).
  destruct (list_eq_dec ascii_dec (lower_s a) (lower_s w)); simpl; [reflexivity|].
  exact (IH Halts').
Qed.

Lemma sub_go_nonword prev d y :
  is_word d = false ->
  sub_go alts r prev 0 (d :: y) = d :: sub_go alts r (Some d) 0 y.
Proof.
  intros Hd. simpl.
  assert (match_at alts prev (d :: y) = None) as ->; [|reflexivity].
  clear r. induction alts as [|a alts' IH]; simpl; [reflexivity|].
  simpl in Halts. apply andb_prop in Halts as [Ha Halts'].
  assert (match_alt prev a (d :: y) = None) as ->; [|exact (IH Halts')].
  unfold match_alt. destruct (boundary _ _); [|reflexivity].
  destruct a as [|a0 a']; [discriminate|]. simpl in Ha |- *.
  apply andb_prop in Ha as [Ha0 _]. rewrite lower_char_neq by assumption. reflexivity.
Qed.

Lemma sub_go_inword c v y :
  is_word c = true -> forallb is_word v = true ->
  sub_go alts r (Some c) 0 (v ++ y) = v ++ sub_go alts r (lastc (Some c) v) 0 y.
Proof.
  revert c. induction v as [|x v IH]; intros c Hc Hv; [reflexivity|].
  simpl in Hv. apply andb_prop in Hv as [Hx Hv].
  simpl. rewrite match_at_noboundary
    by (unfold boundary; simpl; rewrite Hc, Hx; reflexivity).
  f_equal. exact (IH x Hx Hv).
Qed.

Lemma sub_go_skip prev v y :
  sub_go alts r prev (length v) (v ++ y) = sub_go alts r (lastc prev v) 0 y.
Proof.
  revert prev. induction v as [|x v IH]; intros prev; [reflexivity|].
  simpl. apply IH.
Qed.

Lemma sub_go_word prev w y :
  wordo prev = false -> w <> [] -> forallb is_word w = true -> after_word y ->
  sub_go alts r prev 0 (w ++ y) =
    (if mem (map lower_s alts) (lower_s w) then r else w)
    ++ sub_go alts r (lastc prev w) 0 y.
Proof.
  intros Hp Hne Hw Hy.
  pose proof (match_at_word prev w y Hp Hne Hw Hy) as HM.
  destruct w as [|c w]; [congruence|].
  simpl in HM, Hw |- *. apply andb_prop in Hw as [Hc Hw].
  rewrite HM. destruct (mem _ _).
  - f_equal. apply sub_go_skip.
  - simpl. f_equal. exact (sub_go_inword c w y Hc Hw).
Qed.

End SubWords.

Section SubTokens.
Variable alts : list text.
Variable r : text.
Hypothesis Halts : forallb word_lit alts = true.

Definition sub_token (t : text) : list text :=
  if mem (map lower_s alts) t then tokenize r else [t].

Definition len_lt (x y : text) : Prop := length x < length y.

Lemma len_lt_wf : well_founded len_lt.
Proof. exact (well_founded_ltof text (@length ascii)). Qed.

(** Replacing whole words acts on the token sequence token by token. *)
Lemma tokenize_sub_go s prev :
  wordo prev = false ->
  tokenize (sub_go alts r prev 0 s) = flat_map sub_token (tokenize s).
Proof.
  revert prev. induction s as [s IH] using (well_founded_induction len_lt_wf).
  intros prev Hp.
  destruct (decompose s) as [-> | [[d [y [-> Hd]]] | [w [y [Hne [Hw [-> Hy]]]]]]].
  - reflexivity.
  - rewrite (sub_go_nonword alts r Halts prev d y Hd).
    rewrite !tokenize_cons_nonword by exact Hd.
    apply IH; [unfold len_lt; simpl; lia | exact Hd].
  - rewrite (sub_go_word alts r Halts prev w y Hp Hne Hw Hy).
    destruct Hy as [-> | [d [y' [-> Hd]]]].
    + simpl sub_go. rewrite !app_nil_r, (tokenize_word w Hne Hw).
      simpl. unfold sub_token. rewrite app_nil_r.
      destruct (mem _ _); [reflexivity|]. apply tokenize_word; assumption.
    + rewrite (sub_go_nonword alts r Halts _ d y' Hd).
      rewrite !tokenize_app_nonword by exact Hd.
      rewrite (tokenize_word w Hne Hw), flat_map_app.
      rewrite (IH y' (length_lt_app_cons w d y' Hne) (Some d) Hd).
      f_equal. simpl. unfold sub_token. rewrite app_nil_r.
      destruct (mem _ _); [reflexivity|]. apply tokenize_word; assumption.
Qed.

Lemma tokenize_sub s :
  tokenize (sub alts r s) = flat_map sub_token (tokenize s).
Proof. apply tokenize_sub_go. reflexivity. Qed.

(** Without a token to replace, [sub] returns its subject. *)
Lemma sub_go_id s prev :
  wordo prev = false ->
  (forall t, In t (tokenize s) -> mem (map lower_s alts) t = false) ->
  sub_go alts r prev 0 s = s.
Proof.
  revert prev. induction s as [s IH] using (well_founded_induction len_lt_wf).
  intros prev Hp Hn.
  destruct (decompose s) as [-> | [[d [y [-> Hd]]] | [w [y [Hne [Hw [-> Hy]]]]]]].
  - reflexivity.
  - rewrite (sub_go_nonword alts r Halts prev d y Hd). f_equal.
    apply IH; [unfold len_lt; simpl; lia | exact Hd |].
    intros t Ht. apply Hn. rewrite tokenize_cons_nonword by exact Hd. exact Ht.
  - rewrite (sub_go_word alts r Halts prev w y Hp Hne Hw Hy).
    assert (Hw' : mem (map lower_s alts) (lower_s w) = false).
    { apply Hn. destruct Hy as [-> | [d [y' [-> Hd]]]].
      - rewrite app_nil_r, (tokenize_word w Hne Hw). left; reflexivity.
      - rewrite tokenize_app_nonword by exact Hd.
        rewrite (tokenize_word w Hne Hw). left; reflexivity. }
    rewrite Hw'. f_equal.
    destruct Hy as [-> | [d [y' [-> Hd]]]]; [reflexivity|].
    rewrite (sub_go_nonword alts r Halts _ d y' Hd). f_equal.
    apply IH; [exact (length_lt_app_cons w d y' Hne) | exact Hd |].
    intros t Ht. apply Hn. rewrite tokenize_app_nonword by exact Hd.
    apply in_or_app. right. exact Ht.
Qed.

End SubTokens.

(** * Whole-word occurrences

    [w] occurs case-insensitively as a whole word in [s] when [s] splits as
    [pre ++ m ++ post], [m] equals [w] up to case, and neither the
    character before [m] nor the one after it is a word character. *)
Definition occurs_ci (w s : text) : Prop :=
  exists pre m post,
    s = pre ++ m ++ post /\ lower_s m = lower_s w /\
    (pre = [] \/ exists pre0 d, pre = pre0 ++ [d] /\ is_word d = false) /\
    after_word post.

Lemma word_lit_lower w : word_lit (lower_s w) = word_lit w.
Proof. destruct w as [|c w]; [reflexivity|]. exact (forallb_word_lower (c :: w)). Qed.

(** A word occurs case-insensitively as a whole word exactly when its
    lower-case form is one of the tokens. *)
Lemma occurs_ci_tokenize w s :
  word_lit w = true -> (occurs_ci w s <-> In (lower_s w) (tokenize s)).
Proof.
  intros Hw. split.
  - intros [pre [m [post [-> [Hm [Hpre Hpost]]]]]].
    assert (Hm' : word_lit m = true) by (rewrite <- word_lit_lower, Hm, word_lit_lower; exact Hw).
    assert (Hne : m <> []) by (intros ->; discriminate).
    assert (Hmw : forallb is_word m = true) by (destruct m; [discriminate | exact Hm']).
    assert (Htm : In (lower_s w) (tokenize (m ++ post))).
    { destruct Hpost as [-> | [d [y [-> Hd]]]].
      - rewrite app_nil_r, (tokenize_word m Hne Hmw), Hm. left; reflexivity.
      - rewrite tokenize_app_nonword by exact Hd.
        rewrite (tokenize_word m Hne Hmw), Hm. left; reflexivity. }
    destruct Hpre as [-> | [pre0 [d [-> Hd]]]]; [exact Htm|].
    rewrite <- app_assoc. simpl. rewrite tokenize_app_nonword by exact Hd.
    apply in_or_app. right. exact Htm.
  - revert s. intros s. induction s as [s IH] using (well_founded_induction len_lt_wf).
    intros Hin.
    destruct (decompose s) as [-> | [[d [y [-> Hd]]] | [w0 [y [Hne [Hw0 [-> Hy]]]]]]].
    + contradiction.
    + rewrite tokenize_cons_nonword in Hin by exact Hd.
      destruct (IH y ltac:(unfold len_lt; simpl; lia) Hin)
        as [pre [m [post [-> [Hm [Hpre Hpost]]]]]].
      exists (d :: pre), m, post. repeat split; [exact Hm | | exact Hpost].
      right. destruct Hpre as [-> | [pre0 [d' [-> Hd']]]].
      * exists [], d. split; [reflexivity | exact Hd].
      * exists (d :: pre0), d'. split; [reflexivity | exact Hd'].
    + destruct Hy as [-> | [d [y' [-> Hd]]]].
      * rewrite app_nil_r, (tokenize_word w0 Hne Hw0) in Hin.
        destruct Hin as [Hin | []].
        exists [], w0, []. repeat split; [exact Hin | left; reflexivity | left; reflexivity].
      * rewrite tokenize_app_nonword, (tokenize_word w0 Hne Hw0) in Hin by exact Hd.
        destruct Hin as [Hin | Hin].
        -- exists [], w0, (d :: y'). repeat split; [exact Hin | left; reflexivity | right; eauto].
        -- destruct (IH y' (length_lt_app_cons w0 d y' Hne) Hin)
             as [pre [m [post [-> [Hm [Hpre Hpost]]]]]].
           exists (w0 ++ d :: pre), m, post. repeat split.
           ++ rewrite <- app_assoc. reflexivity.
           ++ exact Hm.
           ++ right. destruct Hpre as [-> | [pre0 [d' [-> Hd']]]].
              ** exists w0, d. split; [reflexivity | exact Hd].
              ** exists (w0 ++ d :: pre0), d'. split; [rewrite <- app_assoc; reflexivity | exact Hd'].
           ++ exact Hpost.
Qed.

(** * The post-passes keep the token sequence *)

Definition nonwords (s : text) : bool := forallb (fun c => negb (is_word c)) s.

Lemma tokenize_prefix_nonwords sp z :
  nonwords sp = true -> tokenize (sp ++ z) = tokenize z.
Proof.
  induction sp as [|d sp IH]; simpl; [reflexivity|].
  intros H. apply andb_prop in H as [Hd Hsp].
  rewrite tokenize_cons_nonword by (destruct (is_word d); simpl in *; congruence).
  exact (IH Hsp).
Qed.

Lemma lstrip_spec s : exists sp, s = sp ++ lstrip s /\ nonwords sp = true.
Proof.
  induction s as [|c s [sp [Hs Hsp]]]; simpl.
  - exists []. split; reflexivity.
  - destruct (is_space c) eqn:Hc.
    + exists (c :: sp). simpl. rewrite <- Hs, Hsp, is_word_space by exact Hc.
      split; reflexivity.
    + exists []. split; reflexivity.
Qed.

Lemma nonwords_rev sp : nonwords sp = true -> nonwords (rev sp) = true.
Proof.
  unfold nonwords. rewrite !forallb_forall. intros H c Hc.
  apply H. apply in_rev. exact Hc.
Qed.

Lemma tokenize_lstrip s : tokenize (lstrip s) = tokenize s.
Proof.
  destruct (lstrip_spec s) as [sp [Hs Hsp]].
  rewrite Hs at 2. symmetry. apply tokenize_prefix_nonwords. exact Hsp.
Qed.

Lemma tokenize_strip s : tokenize (strip s) = tokenize s.
Proof.
  unfold strip. rewrite <- (tokenize_lstrip s).
  set (u := lstrip s).
  destruct (lstrip_spec (rev u)) as [sp [Hs Hsp]].
  assert (Hu : u = rev (lstrip (rev u)) ++ rev sp).
  { rewrite <- rev_app_distr, <- Hs, rev_involutive. reflexivity. }
  rewrite Hu at 2. symmetry. apply tokenize_app_nonwords.
  apply nonwords_rev. exact Hsp.
Qed.

Lemma tokenize_capitalize x : tokenize (capitalize x) = tokenize x.
Proof.
  unfold tokenize. f_equal. destruct x as [|c x]; simpl; [reflexivity|].
  rewrite lower_upper, lower_s_idem. reflexivity.
Qed.

Lemma tokenize_join_dot ps :
  tokenize (join (L ". ") ps) = concat (map tokenize ps).
Proof.
  induction ps as [|p ps IH]; [reflexivity|].
  destruct ps as [|q ps].
  - simpl. rewrite app_nil_r. reflexivity.
  - change (join (L ". ") (p :: q :: ps))
      with (p ++ "."%char :: " "%char :: join (L ". ") (q :: ps)).
    rewrite tokenize_app_nonword by reflexivity.
    rewrite tokenize_cons_nonword by reflexivity. rewrite IH. reflexivity.
Qed.

Lemma split_seps_struct s :
  exists p ps, split_seps s = p :: ps /\
    ((s = p /\ ps = []) \/
     exists d s', is_comma_semi d = true /\ s = p ++ d :: s' /\ ps = split_seps s').
Proof.
  induction s as [|c s [p [ps [Hsp Hcase]]]].
  - exists [], []. split; [reflexivity | left; split; reflexivity].
  - simpl. rewrite Hsp. destruct (is_comma_semi c) eqn:Hc.
    + exists [], (p :: ps). split; [reflexivity|].
      right. exists c, s. repeat split; [exact Hc | exact (eq_sym Hsp)].
    + exists (c :: p), ps. split; [reflexivity|].
      destruct Hcase as [[-> ->] | [d [s' [Hd [-> ->]]]]].
      * left; split; reflexivity.
      * right. exists d, s'. repeat split; exact Hd.
Qed.

Lemma tokenize_split_seps s :
  concat (map tokenize (split_seps s)) = tokenize s.
Proof.
  induction s as [s IH] using (well_founded_induction len_lt_wf).
  destruct (split_seps_struct s) as [p [ps [-> [[-> ->] | [d [s' [Hd [-> ->]]]]]]]].
  - simpl. apply app_nil_r.
  - simpl. rewrite tokenize_app_nonword by (apply is_word_comma_semi; exact Hd).
    f_equal. apply IH. unfold len_lt. rewrite length_app. simpl. lia.
Qed.

Lemma tokenize_split_long_sentences s :
  tokenize (split_long_sentences s) = tokenize s.
Proof.
  unfold split_long_sentences.
  destruct (20 <? split_count s); [|reflexivity].
  destruct (1 <? length (split_seps s)); [|reflexivity].
  rewrite tokenize_join_dot, map_map, <- tokenize_split_seps.
  f_equal. apply map_ext. intros p.
  rewrite tokenize_capitalize, tokenize_strip. reflexivity.
Qed.

(** * Word substitutions on the token sequence *)

Lemma in_tokenize_sub alts r s t :
  forallb word_lit alts = true ->
  In t (tokenize (sub alts r s)) ->
  (In t (tokenize s) /\ mem (map lower_s alts) t = false) \/ In t (tokenize r).
Proof.
  intros Halts Hin. rewrite (tokenize_sub alts r Halts s) in Hin.
  apply in_flat_map in Hin as [t0 [Ht0 Hin]]. unfold sub_token in Hin.
  destruct (mem _ t0) eqn:Hm; [right; exact Hin|].
  destruct Hin as [<- | []]. left. split; assumption.
Qed.

Lemma in_tokenize_sub_table table s t :
  forallb (fun kv => word_lit (fst kv)) table = true ->
  In t (tokenize (sub_table table s)) ->
  In t (tokenize s) \/ exists kv, In kv table /\ In t (tokenize (snd kv)).
Proof.
  unfold sub_table. revert s.
  induction table as [|kv table IH]; intros s Hk Hin; simpl in *; [left; exact Hin|].
  apply andb_prop in Hk as [Hkv Hk].
  destruct (IH _ Hk Hin) as [Hin' | [kv' [Hkv' Ht]]].
  - apply in_tokenize_sub in Hin' as [[Hin' _] | Hin'];
      [left; exact Hin' | right; exists kv; split; [left; reflexivity | exact Hin'] |].
    simpl. rewrite Hkv. reflexivity.
  - right. exists kv'. split; [right; exact Hkv' | exact Ht].
Qed.

Lemma sub_table_id table s :
  forallb (fun kv => word_lit (fst kv)) table = true ->
  (forall kv, In kv table -> ~ occurs_ci (fst kv) s) ->
  sub_table table s = s.
Proof.
  unfold sub_table. induction table as [|kv table IH]; intros Hk Hno; simpl in *; [reflexivity|].
  apply andb_prop in Hk as [Hkv Hk].
  assert (Hs : sub [fst kv] (snd kv) s = s).
  { apply sub_go_id; [simpl; rewrite Hkv; reflexivity | reflexivity |].
    intros t Ht. simpl. destruct (list_eq_dec ascii_dec (lower_s (fst kv)) t) as [<- |]; [|reflexivity].
    exfalso. apply (Hno kv (or_introl eq_refl)).
    apply occurs_ci_tokenize; assumption. }
  rewrite Hs. apply IH; [exact Hk|]. intros kv' Hkv'. apply Hno. right. exact Hkv'.
Qed.

(** [compress_max] leaves none of its words among the tokens. *)
Definition max_removed : list text := aux_verbs ++ have_verbs ++ rel_pronouns.

Lemma tokenize_compress_max s t :
  In t (tokenize (compress_max s)) -> mem max_removed t = false.
Proof.
  unfold compress_max. rewrite tokenize_strip. intros Hin.
  apply in_tokenize_sub in Hin as [[Hin H3] | []]; [|reflexivity].
  apply in_tokenize_sub in Hin as [[Hin H2] | []]; [|reflexivity].
  apply in_tokenize_sub in Hin as [[_ H1] | []]; [|reflexivity].
  unfold max_removed, mem in *. rewrite !existsb_app.
  change (map lower_s aux_verbs) with aux_verbs in H1.
  change (map lower_s have_verbs) with have_verbs in H2.
  change (map lower_s rel_pronouns) with rel_pronouns in H3.
  apply orb_false_iff; split; [exact H1 | apply orb_false_iff; split; [exact H2 | exact H3]].
Qed.

(** At level 4 the pipeline ends with [compress_max], the splitter, the
    number converter and the final strip. *)
Lemma simplify_level4_shape s :
  exists x, _simplify (at_level 4) s =
    strip (convert_numbers default_config (split_long_sentences (compress_max x))).
Proof. eexists. reflexivity. Qed.

Lemma number_keys_words :
  forallb (fun kv => word_lit (fst kv)) (number_mapping default_config) = true.
Proof. vm_compute. reflexivity. Qed.

Lemma number_values_clean :
  forallb (fun kv => forallb (fun t => negb (mem max_removed t)) (tokenize (snd kv)))
    (number_mapping default_config) = true.
Proof. vm_compute. reflexivity. Qed.

Lemma tokenize_simplify_level4 s t :
  In t (tokenize (_simplify (at_level 4) s)) -> mem max_removed t = false.
Proof.
  destruct (simplify_level4_shape s) as [x ->].
  rewrite tokenize_strip. intros Hin.
  apply in_tokenize_sub_table in Hin as [Hin | [kv [Hkv Hin]]];
    [| | exact number_keys_words].
  - rewrite tokenize_split_long_sentences in Hin.
    exact (tokenize_compress_max x t Hin).
  - pose proof number_values_clean as H. rewrite forallb_forall in H.
    specialize (H kv Hkv). rewrite forallb_forall in H.
    specialize (H t Hin). destruct (mem max_removed t); [discriminate | reflexivity].
Qed.

(** * The tokenizer returns the maximal runs of word characters

    [layout s ts]: reading [s] from the left, [ts] lists its maximal runs
    of word characters; every other character separates runs. *)
Inductive layout : text -> list text -> Prop :=
| lay_nil : layout [] []
| lay_sep d s ts :
    is_word d = false -> layout s ts -> layout (d :: s) ts
| lay_word w d s ts :
    w <> [] -> forallb is_word w = true -> is_word d = false ->
    layout s ts -> layout (w ++ d :: s) (w :: ts)
| lay_last w :
    w <> [] -> forallb is_word w = true -> layout w [w].

Lemma lead_layout s :
  forallb is_word (fst (lead s)) = true /\
  exists rest, s = fst (lead s) ++ rest /\
    ((rest = [] /\ snd (lead s) = []) \/
     exists d r, rest = d :: r /\ is_word d = false /\ layout r (snd (lead s))).
Proof.
  induction s as [|c s [Hw [rest [Hs Hrest]]]].
  - split; [reflexivity|]. exists []. split; [reflexivity | left; split; reflexivity].
  - simpl. destruct (lead s) as [w ts] eqn:Hl. simpl in *.
    destruct (is_word c) eqn:Hc; simpl.
    + split; [rewrite Hc, Hw; reflexivity|].
      exists rest. split; [rewrite Hs; reflexivity | exact Hrest].
    + split; [reflexivity|]. exists (c :: s). split; [reflexivity|].
      right. exists c, s. repeat split; [exact Hc|].
      destruct Hrest as [[-> ->] | [d [r [-> [Hd Hr]]]]]; rewrite app_nil_r in Hs || idtac.
      * destruct w as [|x w]; simpl; subst s; [constructor|].
        apply lay_last; [congruence | exact Hw].
      * subst s. destruct w as [|x w]; simpl.
        -- apply lay_sep; assumption.
        -- apply (lay_word (x :: w)); [congruence | exact Hw | exact Hd | exact Hr].
Qed.

Lemma runs_layout s : layout s (runs s).
Proof.
  destruct (lead_layout s) as [Hw [rest [Hs Hrest]]].
  unfold runs. destruct (lead s) as [w ts]. simpl in *.
  destruct Hrest as [[-> ->] | [d [r [-> [Hd Hr]]]]].
  - rewrite app_nil_r in Hs. subst s. destruct w as [|x w]; simpl; [constructor|].
    apply lay_last; [congruence | exact Hw].
  - subst s. destruct w as [|x w]; simpl.
    + apply lay_sep; assumption.
    + apply (lay_word (x :: w)); [congruence | exact Hw | exact Hd | exact Hr].
Qed.

Lemma runs_word w : w <> [] -> forallb is_word w = true -> runs w = [w].
Proof.
  intros Hne Hw. unfold runs. rewrite lead_word by exact Hw.
  destruct w; [congruence | reflexivity].
Qed.

Lemma layout_runs s ts : layout s ts -> ts = runs s.
Proof.
  induction 1 as [| d s ts Hd H IH | w d s ts Hne Hw Hd H IH | w Hne Hw].
  - reflexivity.
  - rewrite IH. exact (eq_sym (runs_app_nonword [] d s Hd)).
  - rewrite runs_app_nonword by exact Hd. rewrite runs_word by assumption.
    rewrite IH. reflexivity.
  - symmetry. apply runs_word; assumption.
Qed.

Lemma layout_functional s ts1 ts2 : layout s ts1 -> layout s ts2 -> ts1 = ts2.
Proof.
  intros H1 H2. rewrite (layout_runs _ _ H1), (layout_runs _ _ H2). reflexivity.
Qed.

(** * Splitter, level table and batch helpers *)

Lemma length_split_seps s :
  length (split_seps s) = S (length (filter is_comma_semi s)).
Proof.
  induction s as [|c s IH]; simpl; [reflexivity|].
  destruct (is_comma_semi c); simpl; [rewrite IH; reflexivity|].
  destruct (split_seps s); simpl in *; [discriminate | exact IH].
Qed.

Lemma mem_Z_In (n : Z) ks : existsb (Z.eqb n) ks = true <-> In n ks.
Proof.
  rewrite existsb_exists. split.
  - intros [k [Hk E]]. apply Z.eqb_eq in E. subst. exact Hk.
  - intros H. exists n. split; [exact H | apply Z.eqb_refl].
Qed.

Lemma fold_min_spec ks k0 :
  In (fold_left Z.min ks k0) (k0 :: ks) /\
  forall k, In k (k0 :: ks) -> (fold_left Z.min ks k0 <= k)%Z.
Proof.
  revert k0. induction ks as [|k ks IH]; intros k0; simpl.
  - split; [left; reflexivity | intros k [<- | []]; lia].
  - destruct (IH (Z.min k0 k)) as [Hin Hle]. split.
    + destruct Hin as [Hin | Hin]; [|right; right; exact Hin].
      rewrite <- Hin. destruct (Z.min_spec k0 k) as [[_ ->] | [_ ->]]; auto.
    + intros k' [<- | [<- | Hk']].
      * specialize (Hle (Z.min k0 k) (or_introl eq_refl)). lia.
      * specialize (Hle (Z.min k0 k) (or_introl eq_refl)). lia.
      * apply Hle. right. exact Hk'.
Qed.

Lemma fold_max_spec ks k0 :
  In (fold_left Z.max ks k0) (k0 :: ks) /\
  forall k, In k (k0 :: ks) -> (k <= fold_left Z.max ks k0)%Z.
Proof.
  revert k0. induction ks as [|k ks IH]; intros k0; simpl.
  - split; [left; reflexivity | intros k [<- | []]; lia].
  - destruct (IH (Z.max k0 k)) as [Hin Hle]. split.
    + destruct Hin as [Hin | Hin]; [|right; right; exact Hin].
      rewrite <- Hin. destruct (Z.max_spec k0 k) as [[_ ->] | [_ ->]]; auto.
    + intros k' [<- | [<- | Hk']].
      * specialize (Hle (Z.max k0 k) (or_introl eq_refl)). lia.
      * specialize (Hle (Z.max k0 k) (or_introl eq_refl)). lia.
      * apply Hle. right. exact Hk'.
Qed.

Lemma simplify_sentence_run st s :
  exists log, simplify_sentence s st = (Ok (_simplify st s), log, st).
Proof. eexists. reflexivity. Qed.

Lemma mem_true_In l w : mem l w = true <-> In w l.
Proof.
  unfold mem. rewrite existsb_exists. split.
  - intros [x [Hx E]]. destruct (list_eq_dec ascii_dec x w); [subst; exact Hx | discriminate].
  - intros H. exists w. split; [exact H|]. destruct (list_eq_dec ascii_dec w w); congruence.
Qed.

Lemma not_occurs_of_tokens (table : list (text * text)) s :
  forallb (fun kv => word_lit (fst kv) && negb (mem (tokenize s) (lower_s (fst kv)))) table = true ->
  forall kv, In kv table -> ~ occurs_ci (fst kv) s.
Proof.
  intros H kv Hkv Hocc. rewrite forallb_forall in H.
  pose proof (H kv Hkv) as Hk. apply andb_prop in Hk as [Hw Hn].
  apply (occurs_ci_tokenize _ _ Hw), mem_true_In in Hocc.
  rewrite Hocc in Hn. discriminate.
Qed.

(** * [sub] with phrases: literals that start and end with a word character

    The synonym and redundant-phrase tables and the passive patterns hold
    multi-word literals; a replacement then brings in the tokens of the
    replacement text only where every token of the matched literal was a
    token of the subject. *)

Definition edge_word (a : text) : bool :=
  match a with
  | [] => false
  | c :: _ => is_word c && wordo (last (map Some a) None)
  end.

Lemma last_map_some_default (a : text) p q :
  a <> [] -> last (map Some a) p = last (map Some a) q.
Proof.
  induction a as [|x a IH]; intros Hne; [congruence|].
  destruct a as [|y a]; [reflexivity|].
  change (last (map Some (x :: y :: a)) p) with (last (map Some (y :: a)) p).
  change (last (map Some (x :: y :: a)) q) with (last (map Some (y :: a)) q).
  apply IH. discriminate.
Qed.

Lemma match_at_some alts prev s n :
  match_at alts prev s = Some n ->
  exists a rest, In a alts /\ n = length a /\ prefix_ci a s = Some rest /\
    boundary (last (map Some a) prev) (hd_error rest) = true.
Proof.
  induction alts as [|a alts IH]; simpl; [discriminate|].
  destruct (match_alt prev a s) as [k|] eqn:Ha.
  - intros Hk. injection Hk as Hk. subst n. unfold match_alt in Ha.
    destruct (boundary prev (hd_error s)); [|discriminate].
    destruct (prefix_ci a s) as [rest|] eqn:Hp; [|discriminate].
    destruct (boundary _ (hd_error rest)) eqn:Hb; [|discriminate].
    injection Ha as Ha. subst k. exists a, rest. simpl. auto.
  - intros H. destruct (IH H) as [a' [rest [Hin Hrest]]].
    exists a', rest. split; [right; exact Hin | exact Hrest].
Qed.

Lemma length_lower_s x : length (lower_s x) = length x.
Proof. apply length_map. Qed.

Section SubPhrases.
Variable alts : list text.
Variable r : text.
Hypothesis Halts : forallb edge_word alts = true.

Lemma sub_go_nonword_edge prev d y :
  is_word d = false ->
  sub_go alts r prev 0 (d :: y) = d :: sub_go alts r (Some d) 0 y.
Proof.
  intros Hd. simpl.
  assert (match_at alts prev (d :: y) = None) as ->; [|reflexivity].
  clear r. induction alts as [|a alts' IH]; simpl; [reflexivity|].
  simpl in Halts. apply andb_prop in Halts as [Ha Halts'].
  assert (match_alt prev a (d :: y) = None) as ->; [|exact (IH Halts')].
  unfold match_alt. destruct (boundary _ _); [|reflexivity].
  destruct a as [|a0 a']; [discriminate|]. simpl in Ha |- *.
  apply andb_prop in Ha as [Ha0 _]. rewrite lower_char_neq by assumption. reflexivity.
Qed.

Lemma tokenize_lower_s_eq x y : lower_s x = lower_s y -> tokenize x = tokenize y.
Proof. unfold tokenize. intros ->. reflexivity. Qed.

(** Every token of the result is a token of the subject, or a token of the
    replacement brought in by a literal all of whose tokens are tokens of
    the subject. *)
Lemma in_tokenize_sub_go_edge s prev t :
  wordo prev = false ->
  In t (tokenize (sub_go alts r prev 0 s)) ->
  In t (tokenize s) \/
  (In t (tokenize r) /\ exists a, In a alts /\ incl (tokenize a) (tokenize s)).
Proof.
  revert prev. induction s as [s IH] using (well_founded_induction len_lt_wf).
  intros prev Hp Hin.
  destruct (decompose s) as [-> | [[d [y [-> Hd]]] | [w [y [Hne [Hw [-> Hy]]]]]]].
  - contradiction.
  - rewrite sub_go_nonword_edge, tokenize_cons_nonword in Hin by exact Hd.
    rewrite tokenize_cons_nonword by exact Hd.
    exact (IH y ltac:(unfold len_lt; simpl; lia) (Some d) Hd Hin).
  - destruct (match_at alts prev (w ++ y)) as [n|] eqn:HM.
    + destruct (match_at_some _ _ _ _ HM) as [a [rest [Ha [-> [Hpre Hb]]]]].
      destruct (prefix_ci_some _ _ _ Hpre) as [m [Hs Hm]].
      rewrite Hs in HM, Hin |- *.
      assert (Hea : edge_word a = true).
      { rewrite forallb_forall in Halts. exact (Halts a Ha). }
      assert (Hlen : length m = length a).
      { rewrite <- (length_lower_s m), <- (length_lower_s a), Hm. reflexivity. }
      assert (Hta : tokenize m = tokenize a) by (apply tokenize_lower_s_eq; exact Hm).
      assert (Hwl : wordo (last (map Some a) prev) = true).
      { destruct a as [|a0 a']; [discriminate|].
        rewrite (last_map_some_default (a0 :: a') prev None) by discriminate.
        simpl in Hea. apply andb_prop in Hea as [_ H]. exact H. }
      destruct m as [|c m']; [destruct a; simpl in Hlen; [discriminate Hea | discriminate Hlen]|].
      simpl in Hlen. rewrite <- Hlen in HM.
      simpl in Hin, HM. rewrite HM, sub_go_skip in Hin.
      unfold boundary in Hb. rewrite Hwl in Hb.
      destruct rest as [|d rest'].
      * simpl in Hin. rewrite app_nil_r in Hin. right. split; [exact Hin|].
        exists a. split; [exact Ha|]. rewrite app_nil_r, Hta. apply incl_refl.
      * simpl in Hb. assert (Hd : is_word d = false) by (destruct (is_word d); [discriminate | reflexivity]).
        rewrite sub_go_nonword_edge, tokenize_app_nonword in Hin by exact Hd.
        rewrite tokenize_app_nonword by exact Hd. rewrite Hta.
        apply in_app_or in Hin as [Hin | Hin].
        -- right. split; [exact Hin|]. exists a. split; [exact Ha|].
           apply incl_appl, incl_refl.
        -- assert (Hlt : len_lt rest' (w ++ y)).
           { unfold len_lt. rewrite Hs, length_app. simpl. lia. }
           destruct (IH rest' Hlt (Some d) Hd Hin) as [H | [H [a' [Ha' Hinc]]]].
           ++ left. apply in_or_app. right. exact H.
           ++ right. split; [exact H|]. exists a'. split; [exact Ha'|].
              apply incl_appr. exact Hinc.
    + destruct w as [|c w']; [congruence|].
      simpl in Hin, HM. rewrite HM in Hin. simpl in Hw. apply andb_prop in Hw as [Hc Hw'].
      rewrite (sub_go_inword alts r c w' y Hc Hw') in Hin.
      destruct Hy as [-> | [d [y' [-> Hd]]]].
      * left. simpl in Hin. rewrite app_nil_r in Hin |- *. exact Hin.
      * rewrite sub_go_nonword_edge in Hin by exact Hd.
        change (c :: w' ++ d :: sub_go alts r (Some d) 0 y')
          with ((c :: w') ++ d :: sub_go alts r (Some d) 0 y') in Hin.
        rewrite tokenize_app_nonword in Hin by exact Hd.
        rewrite tokenize_app_nonword by exact Hd.
        apply in_app_or in Hin as [Hin | Hin].
        -- left. apply in_or_app. left. exact Hin.
        -- destruct (IH y' (length_lt_app_cons (c :: w') d y' ltac:(discriminate)) (Some d) Hd Hin)
             as [H | [H [a' [Ha' Hinc]]]].
           ++ left. apply in_or_app. right. exact H.
           ++ right. split; [exact H|]. exists a'. split; [exact Ha'|].
              apply incl_appr. exact Hinc.
Qed.

Lemma in_tokenize_sub_edge s t :
  In t (tokenize (sub alts r s)) ->
  In t (tokenize s) \/
  (In t (tokenize r) /\ exists a, In a alts /\ incl (tokenize a) (tokenize s)).
Proof. apply in_tokenize_sub_go_edge. reflexivity. Qed.

End SubPhrases.

(** * Tokens are lowercase runs of word characters *)

Lemma layout_tokens s ts :
  layout s ts -> forall t, In t ts -> t <> [] /\ forallb is_word t = true /\ incl t s.
Proof.
  induction 1 as [| d s ts Hd H IH | w d s ts Hne Hw Hd H IH | w Hne Hw];
    intros t Ht.
  - destruct Ht.
  - destruct (IH t Ht) as [? [? Hi]]. repeat split; try assumption.
    apply incl_tl. exact Hi.
  - destruct Ht as [<- | Ht].
    + repeat split; try assumption. apply incl_appl, incl_refl.
    + destruct (IH t Ht) as [? [? Hi]]. repeat split; try assumption.
      apply incl_appr, incl_tl. exact Hi.
  - destruct Ht as [<- | []]. repeat split; try assumption. apply incl_refl.
Qed.

Lemma lower_s_fixed t : (forall c, In c t -> lower c = c) -> lower_s t = t.
Proof.
  induction t as [|c t IH]; intros H; simpl; [reflexivity|].
  rewrite (H c (or_introl eq_refl)), IH; [reflexivity|].
  intros c' Hc'. apply H. right. exact Hc'.
Qed.

Lemma in_tokenize_token s t :
  In t (tokenize s) -> word_lit t = true /\ lower_s t = t.
Proof.
  intros Ht. unfold tokenize in Ht.
  destruct (layout_tokens _ _ (runs_layout (lower_s s)) t Ht) as [Hne [Hw Hi]].
  split.
  - destruct t; [congruence | exact Hw].
  - apply lower_s_fixed. intros c Hc. apply Hi in Hc. unfold lower_s in Hc.
    apply in_map_iff in Hc as [c0 [<- _]]. apply lower_lower.
Qed.

Lemma tokenize_token s t : In t (tokenize s) -> tokenize t = [t].
Proof.
  intros Ht. destruct (in_tokenize_token s t Ht) as [Hw Hl].
  destruct t as [|c t]; [discriminate|].
  rewrite tokenize_word by (discriminate || exact Hw). rewrite Hl. reflexivity.
Qed.

Lemma tokenize_join_space ps :
  tokenize (join (L " ") ps) = concat (map tokenize ps).
Proof.
  induction ps as [|p ps IH]; [reflexivity|].
  destruct ps as [|q ps].
  - simpl. rewrite app_nil_r. reflexivity.
  - change (join (L " ") (p :: q :: ps)) with (p ++ " "%char :: join (L " ") (q :: ps)).
    rewrite tokenize_app_nonword by reflexivity. rewrite IH. reflexivity.
Qed.

(** * Banned words stay out once removed

    [clean B ts]: no token of [ts] is a word of [B]. *)

Definition clean (B : list text) (ts : list text) : bool :=
  forallb (fun t => negb (mem B t)) ts.

Lemma clean_In B ts t : clean B ts = true -> In t ts -> mem B t = false.
Proof.
  unfold clean. rewrite forallb_forall. intros H Ht. specialize (H t Ht).
  destruct (mem B t); [discriminate | reflexivity].
Qed.

Lemma clean_intro B ts : (forall t, In t ts -> mem B t = false) -> clean B ts = true.
Proof.
  unfold clean. intros H. apply forallb_forall. intros t Ht. rewrite (H t Ht). reflexivity.
Qed.

Lemma clean_incl B ts us : incl us ts -> clean B ts = true -> clean B us = true.
Proof.
  intros Hi H. apply clean_intro. intros t Ht. exact (clean_In B ts t H (Hi t Ht)).
Qed.

(** A replacement keeps the subject clean when each literal either has a
    banned token (so it cannot match a clean subject) or is replaced by a
    clean text. *)
Definition safe_alt (B : list text) (r : text) (a : text) : bool :=
  edge_word a && (negb (clean B (tokenize a)) || clean B (tokenize r)).

Lemma sub_clean B alts r s :
  forallb (safe_alt B r) alts = true ->
  clean B (tokenize s) = true -> clean B (tokenize (sub alts r s)) = true.
Proof.
  intros Hsafe Hs. apply clean_intro. intros t Ht.
  assert (Hedge : forallb edge_word alts = true).
  { apply forallb_forall. intros a Ha. rewrite forallb_forall in Hsafe.
    specialize (Hsafe a Ha). unfold safe_alt in Hsafe.
    apply andb_prop in Hsafe as [H _]. exact H. }
  destruct (in_tokenize_sub_edge alts r Hedge s t Ht) as [H | [H [a [Ha Hinc]]]].
  - exact (clean_In _ _ _ Hs H).
  - rewrite forallb_forall in Hsafe. specialize (Hsafe a Ha). unfold safe_alt in Hsafe.
    rewrite (clean_incl B _ _ Hinc Hs) in Hsafe. simpl in Hsafe.
    apply andb_prop in Hsafe as [_ Hr]. exact (clean_In _ _ _ Hr H).
Qed.

Lemma sub_table_clean B table s :
  forallb (fun kv => safe_alt B (snd kv) (fst kv)) table = true ->
  clean B (tokenize s) = true -> clean B (tokenize (sub_table table s)) = true.
Proof.
  unfold sub_table. revert s.
  induction table as [|kv table IH]; intros s Ht Hs; simpl in *; [exact Hs|].
  apply andb_prop in Ht as [Hkv Ht]. apply IH; [exact Ht|].
  apply sub_clean; [simpl; rewrite Hkv; reflexivity | exact Hs].
Qed.

Lemma dict_get_In {V} (d : list (text * V)) k v : dict_get d k = Some v -> In (k, v) d.
Proof.
  induction d as [|[k' v'] d IH]; simpl; [discriminate|].
  destruct (list_eq_dec ascii_dec k k') as [-> | _].
  - intros [= ->]. left. reflexivity.
  - intros H. right. exact (IH H).
Qed.

Lemma mem_app B1 B2 t : mem (B1 ++ B2) t = mem B1 t || mem B2 t.
Proof. unfold mem. apply existsb_app. Qed.

(** The words removed at the token stage from level 2 on. *)
Definition removed_words (cfg : Config) : list text :=
  stop_words cfg ++ unnecessary_adjectives cfg.

(** The token stage of level 2: stop words dropped, synonyms replaced,
    adjectives dropped, tokens joined by single spaces. *)
Lemma token_stage_clean cfg s :
  forallb (fun kv => negb (word_lit (fst kv)) || clean (removed_words cfg) (tokenize (snd kv)))
    (synonyms cfg) = true ->
  clean (removed_words cfg)
    (tokenize (join (L " ") (remove_unnecessary_adjectives cfg
       (replace_synonyms cfg (remove_stop_words cfg (tokenize s)))))) = true.
Proof.
  intros Hsyn. rewrite tokenize_join_space. apply clean_intro. intros t Ht.
  apply in_concat in Ht as [ts [Hts Ht]]. apply in_map_iff in Hts as [u [<- Hu]].
  unfold remove_unnecessary_adjectives, replace_synonyms, remove_stop_words in Hu.
  apply filter_In in Hu as [Hu Hadj]. apply in_map_iff in Hu as [u0 [Hu0 Hin0]].
  apply filter_In in Hin0 as [Hin0 Hstop].
  destruct (dict_get (synonyms cfg) u0) as [v|] eqn:Hg; subst u.
  - apply dict_get_In in Hg. rewrite forallb_forall in Hsyn. specialize (Hsyn _ Hg).
    simpl in Hsyn. rewrite (proj1 (in_tokenize_token _ _ Hin0)) in Hsyn. simpl in Hsyn.
    exact (clean_In _ _ _ Hsyn Ht).
  - rewrite (tokenize_token _ _ Hin0) in Ht. destruct Ht as [<- | []].
    unfold removed_words. rewrite mem_app.
    destruct (mem (stop_words cfg) u0), (mem (unnecessary_adjectives cfg) u0);
      simpl in *; congruence.
Qed.

Lemma default_synonyms_clean :
  forallb (fun kv => negb (word_lit (fst kv)) ||
                     clean (removed_words default_config) (tokenize (snd kv)))
    (synonyms default_config) = true.
Proof. vm_compute. reflexivity. Qed.

Lemma default_tables_safe :
  forallb (fun kv => safe_alt (removed_words default_config) (snd kv) (fst kv))
    (synonyms default_config) = true /\
  forallb (fun kv => safe_alt (removed_words default_config) (snd kv) (fst kv))
    (redundant_phrases default_config) = true /\
  forallb (fun kv => safe_alt (removed_words default_config) (snd kv) (fst kv))
    (number_mapping default_config) = true /\
  forallb (safe_alt (removed_words default_config) (L "does")) (passive_alts "is") = true /\
  forallb (safe_alt (removed_words default_config) (L "do")) (passive_alts "are") = true /\
  forallb (safe_alt (removed_words default_config) []) aux_verbs = true /\
  forallb (safe_alt (removed_words default_config) []) have_verbs = true /\
  forallb (safe_alt (removed_words default_config) []) rel_pronouns = true.
Proof. vm_compute. repeat split. Qed.

(** ** The pipeline from level 2 on *)

Lemma simplify_level2_shape s :
  _simplify (at_level 2) s =
  strip (convert_numbers default_config (split_long_sentences
    (simplify_phrases default_config (join (L " ")
      (remove_unnecessary_adjectives default_config (replace_synonyms default_config
         (remove_stop_words default_config (tokenize s)))))))).
Proof. reflexivity. Qed.

Lemma simplify_level3_shape s :
  _simplify (at_level 3) s =
  strip (convert_numbers default_config (split_long_sentences
    (remove_redundant_phrases default_config (convert_passive_to_active
    (simplify_phrases default_config (join (L " ")
      (remove_unnecessary_adjectives default_config (replace_synonyms default_config
         (remove_stop_words default_config (tokenize s)))))))))).
Proof. reflexivity. Qed.

Lemma simplify_level4_shape_full s :
  _simplify (at_level 4) s =
  strip (convert_numbers default_config (split_long_sentences (compress_max
    (remove_redundant_phrases default_config (convert_passive_to_active
    (simplify_phrases default_config (join (L " ")
      (remove_unnecessary_adjectives default_config (replace_synonyms default_config
         (remove_stop_words default_config (tokenize s))))))))))).
Proof. reflexivity. Qed.

Lemma level_2_3_4 (level : Z) : (2 <= level <= 4)%Z -> level = 2%Z \/ level = 3%Z \/ level = 4%Z.
Proof. lia. Qed.

Section CleanPipeline.
Let B := removed_words default_config.

Lemma clean_finish x :
  clean B (tokenize x) = true ->
  clean B (tokenize (strip (convert_numbers default_config (split_long_sentences x)))) = true.
Proof.
  intros H. rewrite tokenize_strip. unfold convert_numbers.
  apply sub_table_clean; [apply default_tables_safe|].
  rewrite tokenize_split_long_sentences. exact H.
Qed.

Lemma clean_level3_passes x :
  clean B (tokenize x) = true ->
  clean B (tokenize (remove_redundant_phrases default_config (convert_passive_to_active x))) = true.
Proof.
  intros H. unfold remove_redundant_phrases, convert_passive_to_active.
  apply sub_table_clean; [apply default_tables_safe|].
  apply sub_clean; [apply default_tables_safe|].
  apply sub_clean; [apply default_tables_safe | exact H].
Qed.

Lemma clean_compress_max x :
  clean B (tokenize x) = true -> clean B (tokenize (compress_max x)) = true.
Proof.
  intros H. unfold compress_max. rewrite tokenize_strip.
  apply sub_clean; [apply default_tables_safe|].
  apply sub_clean; [apply default_tables_safe|].
  apply sub_clean; [apply default_tables_safe | exact H].
Qed.

Lemma clean_token_stage s :
  clean B (tokenize (simplify_phrases default_config (join (L " ")
      (remove_unnecessary_adjectives default_config (replace_synonyms default_config
         (remove_stop_words default_config (tokenize s))))))) = true.
Proof.
  unfold simplify_phrases. apply sub_table_clean; [apply default_tables_safe|].
  apply token_stage_clean. exact default_synonyms_clean.
Qed.

Lemma clean_simplify level s :
  (2 <= level <= 4)%Z -> clean B (tokenize (_simplify (at_level level) s)) = true.
Proof.
  intros Hl. destruct (level_2_3_4 level Hl) as [-> | [-> | ->]].
  - rewrite simplify_level2_shape. apply clean_finish, clean_token_stage.
  - rewrite simplify_level3_shape. apply clean_finish, clean_level3_passes, clean_token_stage.
  - rewrite simplify_level4_shape_full.
    apply clean_finish, clean_compress_max, clean_level3_passes, clean_token_stage.
Qed.

End CleanPipeline.

Lemma removed_words_lits w :
  In w (removed_words default_config) -> word_lit w = true /\ lower_s w = w.
Proof.
  intros Hw. vm_compute in Hw.
  repeat (destruct Hw as [<- | Hw]; [split; reflexivity|]). destruct Hw.
Qed.

(** * [str.strip()] is idempotent *)

Definition no_lead_space (x : text) : bool :=
  match x with [] => true | c :: _ => negb (is_space c) end.

Lemma lstrip_no_lead x : no_lead_space (lstrip x) = true.
Proof.
  induction x as [|c x IH]; simpl; [reflexivity|].
  destruct (is_space c) eqn:Hc; [exact IH | simpl; rewrite Hc; reflexivity].
Qed.

Lemma lstrip_id x : no_lead_space x = true -> lstrip x = x.
Proof.
  destruct x as [|c x]; simpl; [reflexivity|].
  destruct (is_space c); [discriminate | reflexivity].
Qed.

Lemma strip_idem s : strip (strip s) = strip s.
Proof.
  unfold strip at 2 3. set (u := lstrip s). set (v := lstrip (rev u)).
  assert (Hu : no_lead_space u = true) by apply lstrip_no_lead.
  assert (Hv : no_lead_space v = true) by apply lstrip_no_lead.
  destruct (lstrip_spec (rev u)) as [sp [Hs _]]. fold v in Hs.
  assert (Hrv : no_lead_space (rev v) = true).
  { assert (Hu' : u = rev v ++ rev sp) by (rewrite <- rev_app_distr, <- Hs, rev_involutive; reflexivity).
    destruct (rev v) as [|c w]; [reflexivity|]. rewrite Hu' in Hu. exact Hu. }
  unfold strip. rewrite (lstrip_id (rev v) Hrv), rev_involutive, (lstrip_id v Hv). reflexivity.
Qed.

(** * Token-level effect of [compress_max] and [convert_numbers] *)

Lemma flat_map_singleton {A} (l : list A) : flat_map (fun x => [x]) l = l.
Proof. induction l as [|x l IH]; simpl; [reflexivity | rewrite IH; reflexivity]. Qed.

Lemma flat_map_flat_map {A B C} (f : A -> list B) (g : B -> list C) l :
  flat_map g (flat_map f l) = flat_map (fun x => flat_map g (f x)) l.
Proof.
  induction l as [|x l IH]; simpl; [reflexivity|]. rewrite flat_map_app, IH. reflexivity.
Qed.

Lemma flat_map_sub_token_nil alts l :
  flat_map (sub_token alts []) l = filter (fun t => negb (mem (map lower_s alts) t)) l.
Proof.
  induction l as [|t l IH]; simpl; [reflexivity|]. unfold sub_token at 1.
  destruct (mem _ t); simpl; rewrite IH; reflexivity.
Qed.

Lemma filter_filter_and {A} (f g : A -> bool) l :
  filter f (filter g l) = filter (fun x => g x && f x) l.
Proof.
  induction l as [|x l IH]; simpl; [reflexivity|].
  destruct (g x) eqn:Hg; simpl; [destruct (f x) eqn:Hf; simpl; rewrite ?Hg, ?Hf|]; rewrite IH; reflexivity.
Qed.

Lemma tokenize_compress_max_filter s :
  tokenize (compress_max s) = filter (fun t => negb (mem max_removed t)) (tokenize s).
Proof.
  unfold compress_max. rewrite tokenize_strip.
  rewrite !tokenize_sub by reflexivity. rewrite !flat_map_sub_token_nil.
  rewrite !filter_filter_and. apply filter_ext. intros t.
  unfold max_removed. rewrite !mem_app.
  change (map lower_s aux_verbs) with aux_verbs.
  change (map lower_s have_verbs) with have_verbs.
  change (map lower_s rel_pronouns) with rel_pronouns.
  destruct (mem aux_verbs t), (mem have_verbs t), (mem rel_pronouns t); reflexivity.
Qed.

(** The token-level lookup of a replacement table: a token that is a key
    becomes the tokens of its value, any other token stays. *)
Definition lookup_token (table : list (text * text)) (t : text) : list text :=
  match dict_get table t with Some v => tokenize v | None => [t] end.

Lemma flat_map_lookup_none table l :
  (forall u, In u l -> dict_get table u = None) -> flat_map (lookup_token table) l = l.
Proof.
  induction l as [|u l IH]; intros H; simpl; [reflexivity|].
  unfold lookup_token at 1. rewrite (H u (or_introl eq_refl)). simpl. f_equal.
  apply IH. intros u' Hu'. apply H. right. exact Hu'.
Qed.

Lemma tokenize_sub_table_map table s :
  forallb (fun kv => word_lit (fst kv)) table = true ->
  (forall kv, In kv table -> lower_s (fst kv) = fst kv) ->
  (forall kv u, In kv table -> In u (tokenize (snd kv)) -> dict_get table u = None) ->
  tokenize (sub_table table s) = flat_map (lookup_token table) (tokenize s).
Proof.
  unfold sub_table. revert s.
  induction table as [|[k v] table IH]; intros s Hw Hl Hv; simpl in *.
  - symmetry. apply flat_map_singleton.
  - apply andb_prop in Hw as [Hk Hw].
    assert (Hv' : forall kv u, In kv table -> In u (tokenize (snd kv)) -> dict_get table u = None).
    { intros kv u Hkv Hu. specialize (Hv kv u (or_intror Hkv) Hu).
      destruct (list_eq_dec ascii_dec u k); [discriminate | exact Hv]. }
    rewrite (IH _ Hw (fun kv H => Hl kv (or_intror H)) Hv').
    rewrite tokenize_sub by (simpl; rewrite Hk; reflexivity).
    rewrite flat_map_flat_map. apply flat_map_ext. intros t.
    specialize (Hl (k, v) (or_introl eq_refl)). simpl in Hl.
    unfold sub_token. change (map lower_s [k]) with [lower_s k]. rewrite Hl.
    unfold lookup_token at 2. unfold mem. simpl.
    destruct (list_eq_dec ascii_dec k t) as [<- | Hne].
    + destruct (list_eq_dec ascii_dec k k) as [_ | []]; [|reflexivity].
      apply flat_map_lookup_none. intros u Hu.
      specialize (Hv (k, v) u (or_introl eq_refl) Hu). simpl in Hv.
      destruct (list_eq_dec ascii_dec u k); [discriminate | exact Hv].
    + destruct (list_eq_dec ascii_dec t k) as [-> | _]; [congruence|].
      simpl. rewrite app_nil_r. reflexivity.
Qed.

Lemma dict_get_key {V} (d : list (text * V)) k v :
  In (k, v) d -> exists v', dict_get d k = Some v'.
Proof.
  induction d as [|[k1 v1] d IH]; simpl; [intros []|].
  intros [Heq | H].
  - injection Heq as -> ->. destruct (list_eq_dec ascii_dec k k); [eauto | congruence].
  - destruct (list_eq_dec ascii_dec k k1); eauto.
Qed.

(** The conditions under which [tokenize_sub_table_map] applies, as a
    boolean test. *)
Definition table_ok (table : list (text * text)) : bool :=
  forallb (fun kv => word_lit (fst kv)) table &&
  forallb (fun kv => if list_eq_dec ascii_dec (lower_s (fst kv)) (fst kv) then true else false)
    table &&
  forallb (fun kv => forallb (fun u => match dict_get table u with
                                       | None => true | Some _ => false end)
                       (tokenize (snd kv))) table.

Lemma tokenize_sub_table_ok table s :
  table_ok table = true ->
  tokenize (sub_table table s) = flat_map (lookup_token table) (tokenize s).
Proof.
  unfold table_ok. intros H. apply andb_prop in H as [H Hv]. apply andb_prop in H as [Hw Hl].
  apply tokenize_sub_table_map; [exact Hw | |].
  - intros kv Hkv. rewrite forallb_forall in Hl. specialize (Hl kv Hkv).
    destruct (list_eq_dec _ _ _); [assumption | discriminate].
  - intros kv u Hkv Hu. rewrite forallb_forall in Hv. specialize (Hv kv Hkv).
    rewrite forallb_forall in Hv. specialize (Hv u Hu).
    destruct (dict_get table u); [discriminate | reflexivity].
Qed.

Lemma sub_table_ok_no_key table s kv :
  table_ok table = true -> In kv table -> ~ In (fst kv) (tokenize (sub_table table s)).
Proof.
  intros Hok Hkv Hin. pose proof Hok as Hok'.
  unfold table_ok in Hok'. apply andb_prop in Hok' as [_ Hv].
  destruct kv as [k v]. simpl in Hin.
  destruct (dict_get_key _ _ _ Hkv) as [v' Hk].
  rewrite (tokenize_sub_table_ok table s Hok) in Hin.
  apply in_flat_map in Hin as [t [_ Ht]]. unfold lookup_token in Ht.
  destruct (dict_get table t) as [w|] eqn:Hg.
  - apply dict_get_In in Hg. rewrite forallb_forall in Hv. specialize (Hv _ Hg).
    rewrite forallb_forall in Hv. specialize (Hv k Ht). rewrite Hk in Hv. discriminate.
  - destruct Ht as [-> | []]. rewrite Hg in Hk. discriminate.
Qed.

Lemma number_table_ok : table_ok (number_mapping default_config) = true.
Proof. vm_compute. reflexivity. Qed.

(** * Characters of the result *)













(** ** No comma or semicolon from level 2 on *)






(** ** Replacements that bring in no new word *)

Definition tokens_within (r a : text) : bool :=
  forallb (mem (tokenize a)) (tokenize r).

Lemma sub_table_incl table s :
  forallb (fun kv => edge_word (fst kv) && tokens_within (snd kv) (fst kv)) table = true ->
  incl (tokenize (sub_table table s)) (tokenize s).
Proof.
  unfold sub_table. revert s.
  induction table as [|kv table IH]; intros s Ht; simpl in *; [apply incl_refl|].
  apply andb_prop in Ht as [Hkv Ht]. apply andb_prop in Hkv as [He Hw].
  eapply incl_tran; [exact (IH _ Ht)|]. intros t Hin.
  destruct (in_tokenize_sub_edge [fst kv] (snd kv) ltac:(simpl; rewrite He; reflexivity) s t Hin)
    as [H | [H [a [[<- | []] Hinc]]]]; [exact H|].
  apply Hinc. unfold tokens_within in Hw. rewrite forallb_forall in Hw.
  apply mem_true_In. exact (Hw t H).
Qed.

Lemma redundant_table_within :
  forallb (fun kv => edge_word (fst kv) && tokens_within (snd kv) (fst kv))
    (redundant_phrases default_config) = true.
Proof. vm_compute. reflexivity. Qed.

Lemma passive_alts_words :
  forallb edge_word (passive_alts "is") = true /\ forallb edge_word (passive_alts "are") = true /\
  forallb (fun a => mem (tokenize a) (L "is") && mem (tokenize a) (L "by")) (passive_alts "is") = true /\
  forallb (fun a => mem (tokenize a) (L "are") && mem (tokenize a) (L "by")) (passive_alts "are") = true.
Proof. vm_compute. repeat split. Qed.

Lemma table_ok_key table kv :
  table_ok table = true -> In kv table -> word_lit (fst kv) = true /\ lower_s (fst kv) = fst kv.
Proof.
  unfold table_ok. intros H Hkv. apply andb_prop in H as [H _]. apply andb_prop in H as [Hw Hl].
  rewrite forallb_forall in Hw, Hl. split; [exact (Hw kv Hkv)|].
  specialize (Hl kv Hkv). destruct (list_eq_dec _ _ _); [assumption | discriminate].
Qed.

Lemma concat_map_tokens l :
  (forall t, In t l -> tokenize t = [t]) -> concat (map tokenize l) = l.
Proof.
  induction l as [|t l IH]; intros H; simpl; [reflexivity|].
  rewrite (H t (or_introl eq_refl)), IH; [reflexivity|].
  intros t' Ht'. apply H. right. exact Ht'.
Qed.

(** * The claims *)

(** C1 (code_bug evidence): at level 1 [_simplify] computes the token
    stage (stop-word removal, synonyms) but never turns the tokens back
    into [sentence]: that assignment sits in the level >= 2 block.  The
    level-1 result is the input sentence split, number-converted and
    stripped, so the stop word "the" survives in "the cat". *)
Theorem level1_discards_token_stage :
  (forall s, _simplify (at_level 1) s =
             strip (convert_numbers default_config (split_long_sentences s))) /\
  _simplify (at_level 1) (L "the cat") = L "the cat" /\
  occurs_ci (L "the") (_simplify (at_level 1) (L "the cat")).
Proof.
  split; [intros s; reflexivity|]. split; [vm_compute; reflexivity|].
  exists [], (L "the"), (L " cat"). split; [vm_compute; reflexivity|].
  split; [reflexivity|]. split; [left; reflexivity|].
  right. exists " "%char, (L "cat"). split; reflexivity.
Qed.

(** A sentence of 21 words whose only comma is trailing. *)
Definition long_trailing_comma : text :=
  L "a b c d e f g h i j k l m n o p q r s t u,".

(** C2 (counterexample): the sentence above has more than 20 words and a
    single non-empty part, yet the splitter rewrites it: [re.split] yields
    an empty last part, which [len(parts) > 1] counts. *)
Lemma split_trailing_comma_rewritten :
  20 < split_count long_trailing_comma /\
  length (filter (fun p => match p with [] => false | _ => true end)
            (split_seps long_trailing_comma)) = 1 /\
  split_long_sentences long_trailing_comma
    = L "A b c d e f g h i j k l m n o p q r s t u. " /\
  split_long_sentences long_trailing_comma <> long_trailing_comma.
Proof.
  split; [vm_compute; lia|]. split; [reflexivity|].
  split; [vm_compute; reflexivity|]. vm_compute. discriminate.
Qed.

(** C2 (amended): the splitter returns its input unchanged when the
    whitespace word count is at most 20 or the string has no comma and no
    semicolon; when the count exceeds 20 and there is a comma or a
    semicolon, every part of [re.split] (empty ones included) is stripped,
    capitalized and rejoined with ". ". *)
Theorem split_long_sentences_trigger s :
  ((split_count s <= 20 \/ existsb is_comma_semi s = false) ->
   split_long_sentences s = s) /\
  (20 < split_count s -> existsb is_comma_semi s = true ->
   split_long_sentences s =
     join (L ". ") (map (fun part => capitalize (strip part)) (split_seps s))).
Proof.
  assert (Hlen : (1 <? length (split_seps s)) = existsb is_comma_semi s).
  { rewrite length_split_seps. induction s as [|c s IH]; simpl; [reflexivity|].
    destruct (is_comma_semi c); simpl; [reflexivity|]. exact IH. }
  unfold split_long_sentences. rewrite Hlen. split.
  - intros [H | H].
    + replace (20 <? split_count s) with false by (symmetry; apply Nat.ltb_ge; exact H).
      reflexivity.
    + rewrite H. destruct (20 <? split_count s); reflexivity.
  - intros H1 H2. apply Nat.ltb_lt in H1. rewrite H1, H2. reflexivity.
Qed.

Lemma split_long_sentences_trigger_witness :
  (split_count (L "short, with a comma") <= 20 \/
   existsb is_comma_semi (L "short, with a comma") = false) /\
  split_long_sentences (L "short, with a comma") = L "short, with a comma".
Proof.
  assert (H : split_count (L "short, with a comma") <= 20) by (vm_compute; lia).
  split; [left; exact H|].
  apply (proj1 (split_long_sentences_trigger (L "short, with a comma"))).
  left; exact H.
Defined.

(** C3: [set_level(n)] succeeds, and stores [n] as the active level, exactly
    when [n] is a key of the configured level table; otherwise it raises
    [ValueError] (the error the spec names InvalidLevel), leaves the object
    unchanged, and its message names the current minimum and maximum keys
    of the table.  The default table's keys are 1, 2, 3, 4. *)
Theorem set_level_contract (st : Simplifier) (n : Z) :
  level_keys (config st) <> [] ->
  (In n (level_keys (config st)) ->
   set_level n st = (Ok tt, [], {| config := config st; _level := n |})) /\
  (~ In n (level_keys (config st)) ->
   exists lo hi,
     In lo (level_keys (config st)) /\ In hi (level_keys (config st)) /\
     (forall k, In k (level_keys (config st)) -> (lo <= k <= hi)%Z) /\
     set_level n st = (Err (ValueError (invalid_level_msg lo hi)), [], st)) /\
  level_keys default_config = [1; 2; 3; 4]%Z.
Proof.
  intros Hne. split; [|split; [|reflexivity]].
  - intros Hin. unfold set_level, bind, get, put. simpl.
    apply mem_Z_In in Hin. rewrite Hin. reflexivity.
  - intros Hnin. unfold set_level, bind, get. simpl.
    destruct (existsb (Z.eqb n) (level_keys (config st))) eqn:E.
    + apply mem_Z_In in E. contradiction.
    + destruct (level_keys (config st)) as [|k ks]; [congruence|].
      destruct (fold_min_spec ks k) as [Hlo Hle].
      destruct (fold_max_spec ks k) as [Hhi Hge].
      exists (fold_left Z.min ks k), (fold_left Z.max ks k).
      split; [exact Hlo|]. split; [exact Hhi|]. split; [|reflexivity].
      intros k' Hk. split; [apply Hle | apply Hge]; exact Hk.
Qed.

Lemma set_level_contract_witness :
  level_keys (config (at_level 1)) <> [] /\
  set_level 7 (at_level 1)
    = (Err (ValueError "Invalid level. Choose between 1 and 4."), [], at_level 1).
Proof.
  assert (Hne : level_keys (config (at_level 1)) <> []) by discriminate.
  split; [exact Hne|].
  destruct (proj1 (proj2 (set_level_contract (at_level 1) 7 Hne)))
    as [lo [hi [Hlo [Hhi [Hb ->]]]]].
  - simpl. lia.
  - assert (lo = 1%Z /\ hi = 4%Z) as [-> ->].
    { pose proof (Hb 1%Z ltac:(simpl; auto)). pose proof (Hb 4%Z ltac:(simpl; auto)).
      simpl in Hlo, Hhi. lia. }
    reflexivity.
Defined.

(** A sentence of 21 words, a comma, and an upper-case acronym. *)
Definition long_with_acronym : text :=
  L "a b c d e f g h i j k l m n o p q r s t u, NASA".

(** C4 (counterexample): [str.capitalize] lower-cases every character after
    the first, so the acronym of the second part comes out as "Nasa", not
    unchanged as "NASA". *)
Lemma split_capitalize_lowers_rest :
  split_long_sentences long_with_acronym
    = L "A b c d e f g h i j k l m n o p q r s t u. Nasa" /\
  split_long_sentences long_with_acronym
    <> L "A b c d e f g h i j k l m n o p q r s t u. NASA".
Proof. split; [vm_compute; reflexivity | vm_compute; discriminate]. Qed.

(** C4 (amended): when the splitter triggers, the result is the parts, each
    stripped and passed through [str.capitalize] (first character
    upper-cased, every other character lower-cased), joined with ". ". *)
Theorem split_long_sentences_parts s :
  20 < split_count s -> 1 < length (split_seps s) ->
  split_long_sentences s =
    join (L ". ") (map (fun part => capitalize (strip part)) (split_seps s)) /\
  (forall c p, capitalize (c :: p) = upper c :: map lower p).
Proof.
  intros H1 H2. split; [|reflexivity].
  unfold split_long_sentences.
  apply Nat.ltb_lt in H1. apply Nat.ltb_lt in H2. rewrite H1, H2. reflexivity.
Qed.

Lemma split_long_sentences_parts_witness :
  20 < split_count long_with_acronym /\ 1 < length (split_seps long_with_acronym) /\
  split_long_sentences long_with_acronym
    = join (L ". ") [capitalize (strip (L "a b c d e f g h i j k l m n o p q r s t u"));
                     capitalize (strip (L " NASA"))].
Proof.
  assert (H1 : 20 < split_count long_with_acronym) by (vm_compute; lia).
  assert (H2 : 1 < length (split_seps long_with_acronym)) by (vm_compute; lia).
  split; [exact H1|]. split; [exact H2|].
  exact (proj1 (split_long_sentences_parts long_with_acronym H1 H2)).
Defined.

(** C5: at level 4 the result never contains, case-insensitively and as a
    whole word, any of is, are, am, was, were, has, have, had, that, which,
    who; the removal runs at level 4 only: at levels 1 to 3 "are" survives
    in "cats are big". *)
Theorem simplify_level4_removes_words :
  (forall s w, In w max_removed -> ~ occurs_ci w (_simplify (at_level 4) s)) /\
  (forall level, (1 <= level <= 3)%Z ->
     occurs_ci (L "are") (_simplify (at_level level) (L "cats are big"))).
Proof.
  split.
  - intros s w Hw Hocc.
    assert (Hwl : word_lit w = true).
    { unfold max_removed in Hw. simpl in Hw.
      repeat (destruct Hw as [<- | Hw]; [reflexivity|]). contradiction. }
    apply (occurs_ci_tokenize _ _ Hwl) in Hocc.
    assert (Hlw : lower_s w = w).
    { unfold max_removed in Hw. simpl in Hw.
      repeat (destruct Hw as [<- | Hw]; [reflexivity|]). contradiction. }
    rewrite Hlw in Hocc.
    pose proof (tokenize_simplify_level4 s w Hocc) as H.
    apply mem_true_In in Hw. congruence.
  - intros level Hl.
    assert (Hout : _simplify (at_level level) (L "cats are big") = L "cats are big").
    { assert (level = 1 \/ level = 2 \/ level = 3)%Z as [-> | [-> | ->]] by lia;
        vm_compute; reflexivity. }
    rewrite Hout. exists (L "cats "), (L "are"), (L " big").
    split; [reflexivity|]. split; [reflexivity|]. split.
    + right. exists (L "cats"), " "%char. split; reflexivity.
    + right. exists " "%char, (L "big"). split; reflexivity.
Qed.

Lemma simplify_level4_removes_words_witness :
  In (L "was") max_removed /\ ~ occurs_ci (L "was") (_simplify (at_level 4) (L "he WAS tall")).
Proof.
  assert (H : In (L "was") max_removed) by (vm_compute; tauto).
  split; [exact H|].
  exact (proj1 simplify_level4_removes_words (L "he WAS tall") (L "was") H).
Defined.

(** C6: the number converter substitutes each number word on its own:
    "one hundred" becomes "1 100". *)
Theorem convert_numbers_one_hundred :
  convert_numbers default_config (L "I have one hundred dogs") = L "I have 1 100 dogs".
Proof. vm_compute. reflexivity. Qed.

(** C7: a string with no case-insensitive whole-word occurrence of a number
    word of the table is returned unchanged by the number converter. *)
Theorem convert_numbers_fixed s :
  (forall kv, In kv (number_mapping default_config) -> ~ occurs_ci (fst kv) s) ->
  convert_numbers default_config s = s.
Proof.
  intros H. unfold convert_numbers. apply sub_table_id; [exact number_keys_words | exact H].
Qed.

Lemma convert_numbers_fixed_witness :
  (forall kv, In kv (number_mapping default_config) ->
     ~ occurs_ci (fst kv) (L "I have 1 100 dogs")) /\
  convert_numbers default_config (L "I have 1 100 dogs") = L "I have 1 100 dogs".
Proof.
  assert (H : forall kv, In kv (number_mapping default_config) ->
                ~ occurs_ci (fst kv) (L "I have 1 100 dogs")).
  { apply not_occurs_of_tokens. vm_compute. reflexivity. }
  split; [exact H | exact (convert_numbers_fixed _ H)].
Defined.

(** C8: [tokenize] is total; its result is the sequence, in order, of the
    maximal runs of word characters of the lower-cased input, and no other
    sequence is; an input without word characters (empty or punctuation
    only) gives no token. *)
Theorem tokenize_maximal_runs s :
  layout (lower_s s) (tokenize s) /\
  (forall ts, layout (lower_s s) ts -> ts = tokenize s) /\
  (nonwords s = true -> tokenize s = []).
Proof.
  split; [apply runs_layout|]. split.
  - intros ts H. exact (layout_runs _ _ H).
  - apply tokenize_nonwords.
Qed.

Lemma tokenize_maximal_runs_witness :
  nonwords (L "?!, ...") = true /\ tokenize (L "?!, ...") = [].
Proof.
  assert (H : nonwords (L "?!, ...") = true) by reflexivity.
  split; [exact H | exact (proj2 (proj2 (tokenize_maximal_runs (L "?!, ..."))) H)].
Defined.

(** C9: [batch_simplify] maps [_simplify] at the current level over the
    sentences, in order, and leaves the object (its level and its tables)
    as it was; only log lines are emitted. *)
Theorem batch_simplify_map st ss :
  exists log, batch_simplify ss st = (Ok (map (_simplify st) ss), log, st).
Proof.
  induction ss as [|s ss [log2 IH]]; [exists []; reflexivity|].
  destruct (simplify_sentence_run st s) as [log1 H1].
  cbn [batch_simplify]. unfold bind at 1. rewrite H1.
  unfold bind at 1. rewrite IH. eexists. reflexivity.
Qed.

(** C10: removal at level 4 deletes only the word, and the final strip
    only trims the ends: "he was tall" becomes "he  tall", with two
    spaces inside. *)
Theorem level4_keeps_double_space :
  _simplify (at_level 4) (L "he was tall") = L "he" ++ L "  " ++ L "tall".
Proof. vm_compute. reflexivity. Qed.

(** * Further properties of the simplifier *)

(** X1: from level 2 on, no stop word and no unnecessary adjective of the
    default tables is left in the result as a whole word, in any case. *)
Theorem level2to4_drops_removed_words (level : Z) (s w : text) :
  (2 <= level <= 4)%Z -> In w (removed_words default_config) ->
  ~ occurs_ci w (_simplify (at_level level) s).
Proof.
  intros Hl Hw Hocc. destruct (removed_words_lits w Hw) as [Hlit Hlow].
  apply (occurs_ci_tokenize w _ Hlit) in Hocc. rewrite Hlow in Hocc.
  pose proof (clean_In _ _ _ (clean_simplify level s Hl) Hocc) as H.
  rewrite (proj2 (mem_true_In _ _) Hw) in H. discriminate.
Qed.

Lemma level2to4_drops_removed_words_witness :
  (2 <= 3 <= 4)%Z /\ In (L "the") (removed_words default_config) /\
  ~ occurs_ci (L "the") (_simplify (at_level 3) (L "The cat is on THE mat")).
Proof.
  assert (H1 : (2 <= 3 <= 4)%Z) by lia.
  assert (H2 : In (L "the") (removed_words default_config)) by (left; reflexivity).
  split; [exact H1 | split; [exact H2 | exact (level2to4_drops_removed_words 3 _ _ H1 H2)]].
Defined.



(** X3: joining the tokens of a sentence with single spaces, as level 2
    does, and tokenizing again gives the same tokens. *)
Theorem tokenize_join_tokens s : tokenize (join (L " ") (tokenize s)) = tokenize s.
Proof.
  rewrite tokenize_join_space. apply concat_map_tokens.
  intros t Ht. exact (tokenize_token s t Ht).
Qed.

(** X4: on the token sequence, [convert_numbers] replaces every token that
    is a number word by the digits of its value and keeps every other
    token, in order. *)
Theorem convert_numbers_tokens s :
  tokenize (convert_numbers default_config s) =
  flat_map (lookup_token (number_mapping default_config)) (tokenize s).
Proof. apply tokenize_sub_table_ok. exact number_table_ok. Qed.

(** X5: [convert_numbers] is idempotent. *)
Theorem convert_numbers_idempotent s :
  convert_numbers default_config (convert_numbers default_config s) =
  convert_numbers default_config s.
Proof.
  unfold convert_numbers at 1. apply sub_table_id.
  - apply forallb_forall. intros kv Hkv. exact (proj1 (table_ok_key _ kv number_table_ok Hkv)).
  - intros kv Hkv Hocc. destruct (table_ok_key _ kv number_table_ok Hkv) as [Hw Hl].
    apply (occurs_ci_tokenize _ _ Hw) in Hocc. rewrite Hl in Hocc.
    exact (sub_table_ok_no_key _ s kv number_table_ok Hkv Hocc).
Qed.

(** X6: on the token sequence, [compress_max] drops exactly the forms of
    "be" and "have" and the relative pronouns it lists, and keeps every
    other token in order. *)
Theorem compress_max_tokens s :
  tokenize (compress_max s) = filter (fun t => negb (mem max_removed t)) (tokenize s).
Proof. apply tokenize_compress_max_filter. Qed.

(** X7: [compress_max] is idempotent. *)
Theorem compress_max_idempotent s : compress_max (compress_max s) = compress_max s.
Proof.
  set (x := compress_max s).
  assert (Hx : forall t, In t (tokenize x) -> mem max_removed t = false)
    by exact (tokenize_compress_max s).
  assert (Hsub : forall alts, forallb word_lit alts = true ->
            (forall t, mem max_removed t = false -> mem (map lower_s alts) t = false) ->
            forall y, tokenize y = tokenize x -> sub alts [] y = y).
  { intros alts Ha Hm y Hy. apply sub_go_id; [exact Ha | reflexivity |].
    intros t Ht. rewrite Hy in Ht. exact (Hm t (Hx t Ht)). }
  unfold compress_max at 1.
  assert (Hm : forall t, mem max_removed t = false ->
            mem aux_verbs t = false /\ mem have_verbs t = false /\ mem rel_pronouns t = false).
  { intros t H. unfold max_removed in H. rewrite !mem_app in H.
    destruct (mem aux_verbs t), (mem have_verbs t), (mem rel_pronouns t); simpl in H;
      try discriminate; repeat split. }
  rewrite (Hsub aux_verbs ltac:(reflexivity) (fun t H => proj1 (Hm t H)) x eq_refl).
  rewrite (Hsub have_verbs ltac:(reflexivity) (fun t H => proj1 (proj2 (Hm t H))) x eq_refl).
  rewrite (Hsub rel_pronouns ltac:(reflexivity) (fun t H => proj2 (proj2 (Hm t H))) x eq_refl).
  apply strip_idem.
Qed.

(** X8: [split_long_sentences] never adds, drops or reorders a word: the
    token sequence of its result is that of its input. *)
Theorem split_long_sentences_tokens s :
  tokenize (split_long_sentences s) = tokenize s.
Proof. apply tokenize_split_long_sentences. Qed.

(** X9: [remove_redundant_phrases] with the default table never brings in
    a word: every token of its result is a token of its input. *)
Theorem remove_redundant_phrases_incl s :
  incl (tokenize (remove_redundant_phrases default_config s)) (tokenize s).
Proof. apply sub_table_incl. exact redundant_table_within. Qed.

(** X10: every token of [convert_passive_to_active]'s result is a token of
    its input, or "does" where "is" and "by" were tokens of the input, or
    "do" where "are" and "by" were. *)
Theorem convert_passive_tokens s t :
  In t (tokenize (convert_passive_to_active s)) ->
  In t (tokenize s) \/
  (t = L "does" /\ In (L "is") (tokenize s) /\ In (L "by") (tokenize s)) \/
  (t = L "do" /\ In (L "are") (tokenize s) /\ In (L "by") (tokenize s)).
Proof.
  destruct passive_alts_words as [His [Hare [Hist Haret]]].
  rewrite forallb_forall in Hist, Haret.
  set (s1 := sub (passive_alts "is") (L "does") s).
  assert (H1 : forall u, In u (tokenize s1) ->
            In u (tokenize s) \/
            (u = L "does" /\ In (L "is") (tokenize s) /\ In (L "by") (tokenize s))).
  { intros u Hu. destruct (in_tokenize_sub_edge _ _ His s u Hu) as [H | [H [a [Ha Hinc]]]];
      [left; exact H | right].
    destruct H as [<- | []]. specialize (Hist a Ha). apply andb_prop in Hist as [Hi Hb].
    apply mem_true_In in Hi, Hb. split; [reflexivity | split; apply Hinc; assumption]. }
  intros Ht. unfold convert_passive_to_active in Ht. fold s1 in Ht.
  destruct (in_tokenize_sub_edge _ _ Hare s1 t Ht) as [H | [H [a [Ha Hinc]]]].
  - destruct (H1 t H) as [H' | H']; [left; exact H' | right; left; exact H'].
  - right. right. destruct H as [<- | []]. specialize (Haret a Ha).
    apply andb_prop in Haret as [Hi Hb]. apply mem_true_In in Hi, Hb.
    apply Hinc in Hi, Hb.
    destruct (H1 _ Hi) as [Hi' | [E _]]; [|discriminate E].
    destruct (H1 _ Hb) as [Hb' | [E _]]; [|discriminate E].
    split; [reflexivity | split; assumption].
Qed.

Lemma convert_passive_tokens_witness :
  In (L "does") (tokenize (convert_passive_to_active (L "It is done by Bob"))) /\
  ((L "does" = L "does" /\ In (L "is") (tokenize (L "It is done by Bob")) /\
    In (L "by") (tokenize (L "It is done by Bob"))) \/
   In (L "does") (tokenize (L "It is done by Bob")) \/
   (L "does" = L "do" /\ In (L "are") (tokenize (L "It is done by Bob")) /\
    In (L "by") (tokenize (L "It is done by Bob")))).
Proof.
  assert (H : In (L "does") (tokenize (convert_passive_to_active (L "It is done by Bob"))))
    by (vm_compute; tauto).
  split; [exact H|].
  destruct (convert_passive_tokens _ _ H) as [A | [B | C]]; [right; left; exact A | left; exact B | right; right; exact C].
Defined.

(** X11: the constructor with the default config accepts exactly the
    levels 1 to 4; any other level raises ValueError with the message
    naming 1 and 4. *)
Theorem init_default_levels (level : Z) :
  init None level =
  if ((1 <=? level) && (level <=? 4))%Z then Ok (at_level level)
  else Err (ValueError (invalid_level_msg 1 4)).
Proof.
  unfold init, set_level, bind, get, put, raise. simpl.
  destruct (Z.eqb_spec level 1) as [->|]; [reflexivity|].
  destruct (Z.eqb_spec level 2) as [->|]; [reflexivity|].
  destruct (Z.eqb_spec level 3) as [->|]; [reflexivity|].
  destruct (Z.eqb_spec level 4) as [->|]; [reflexivity|].
  replace ((1 <=? level) && (level <=? 4))%Z with false; [reflexivity|].
  symmetry. apply andb_false_iff.
  destruct (Z.leb_spec 1 level); [right; apply Z.leb_gt; lia | left; reflexivity].
Qed.

(** X12: [main] never raises: it prints four lines, "Level k: " followed by
    the sentence simplified at level k, for k = 1 to 4 in order. *)
Theorem main_prints_levels s :
  main s =
  (map (fun level => ("Level " ++ str_int level ++ ": "
                      ++ string_of_list_ascii (_simplify (at_level level) s))%string)
       [1; 2; 3; 4]%Z, None).
Proof. reflexivity. Qed.

(** X13: [set_level] followed by [simplify_sentence]: a level of the table
    is installed and the sentence simplified at it; any other level raises
    before anything is logged, and the object is left as it was. *)
Theorem set_level_then_simplify st n s :
  (In n (level_keys (config st)) ->
   exists log, (_ <- set_level n ;; simplify_sentence s) st =
     (Ok (_simplify {| config := config st; _level := n |} s), log,
      {| config := config st; _level := n |})) /\
  (~ In n (level_keys (config st)) ->
   exists e, (_ <- set_level n ;; simplify_sentence s) st = (Err e, [], st)).
Proof.
  split.
  - intros Hin. apply mem_Z_In in Hin.
    assert (Hs : set_level n st = (Ok tt, [], {| config := config st; _level := n |}))
      by (unfold set_level, bind, get, put; simpl; rewrite Hin; reflexivity).
    destruct (simplify_sentence_run {| config := config st; _level := n |} s) as [log H].
    exists log. unfold bind at 1. rewrite Hs, H. reflexivity.
  - intros Hnin.
    assert (Hs : exists e, set_level n st = (Err e, [], st)).
    { unfold set_level, bind, get. simpl.
      destruct (existsb (Z.eqb n) (level_keys (config st))) eqn:E;
        [apply mem_Z_In in E; contradiction|].
      destruct (py_min (level_keys (config st))), (py_max (level_keys (config st)));
        eexists; reflexivity. }
    destruct Hs as [e Hs]. exists e. unfold bind at 1. rewrite Hs. reflexivity.
Qed.

Lemma set_level_then_simplify_witness :
  In 2%Z (level_keys (config (at_level 1))) /\ ~ In 7%Z (level_keys (config (at_level 1))) /\
  (exists log, (_ <- set_level 2 ;; simplify_sentence (L "the cat")) (at_level 1) =
     (Ok (_simplify (at_level 2) (L "the cat")), log, at_level 2)) /\
  (exists e, (_ <- set_level 7 ;; simplify_sentence (L "the cat")) (at_level 1) =
     (Err e, [], at_level 1)).
Proof.
  assert (H2 : In 2%Z (level_keys (config (at_level 1)))) by (simpl; tauto).
  assert (H7 : ~ In 7%Z (level_keys (config (at_level 1)))) by (simpl; lia).
  split; [exact H2 | split; [exact H7 | split]].
  - exact (proj1 (set_level_then_simplify (at_level 1) 2 (L "the cat")) H2).
  - exact (proj2 (set_level_then_simplify (at_level 1) 7 (L "the cat")) H7).
Defined.
